(** * Connection-pool registry, prober, introspection and REST glue

    A shallow embedding of [server/storage.ts] (class [DatabaseStorage]) and
    of the connection handlers of [server/routes.ts].

    - The JavaScript heap of [pg.Pool] objects, the registry
      [connectionPools : Map<number, Pool>] and the [db_connections] table of
      the metadata store are fields of one explicit [World].
    - [async] methods are functions in a state-and-exception monad [M]; a
      rejected promise is [Throw], and state changes made before a throw are
      kept, as in JavaScript.
    - Everything outside the repository (the PostgreSQL targets reached
      through [pg], failures of the metadata store) is an [Env] of oracles
      over which the theorems quantify. *)

From Stdlib Require Import ZArith Ascii String List Bool Lia.
From stdpp Require Import base decidable option list strings gmap fin_maps pretty
  sorting.

#[local] Set Warnings "-register-all".
Local Open Scope Z_scope.

(** ** JavaScript values *)

Inductive JsVal : Type :=
  | VUndefined
  | VNull
  | VBool (b : bool)
  | VNum (n : Z)
  | VNaN
  | VStr (s : string)
  | VArr (items : list JsVal)
  | VObj (props : list (string * JsVal)).

(** An object is its list of own enumerable properties, in insertion order. *)
Definition JsObj : Type := list (string * JsVal).

Fixpoint obj_get (k : string) (o : JsObj) : JsVal :=
  match o with
  | [] => VUndefined
  | (k', v) :: r => if String.eqb k k' then v else obj_get k r
  end.

Fixpoint obj_has (k : string) (o : JsObj) : bool :=
  match o with
  | [] => false
  | (k', _) :: r => String.eqb k k' || obj_has k r
  end.

(** [o[k] = v]: an existing key keeps its position, a new one is appended. *)
Fixpoint obj_set (k : string) (v : JsVal) (o : JsObj) : JsObj :=
  match o with
  | [] => [(k, v)]
  | (k', v') :: r =>
      if String.eqb k k' then (k', v) :: r else (k', v') :: obj_set k v r
  end.

(** [const { k, ...rest } = o]: the rest object. *)
Fixpoint obj_omit (k : string) (o : JsObj) : JsObj :=
  match o with
  | [] => []
  | (k', v) :: r =>
      if String.eqb k k' then obj_omit k r else (k', v) :: obj_omit k r
  end.

(** What [JSON.stringify] (behind [res.json]) keeps of a value: properties
    whose value is [undefined] are dropped, [undefined] array items and [NaN]
    become [null]. *)
Fixpoint to_json (v : JsVal) : JsVal :=
  match v with
  | VUndefined => VUndefined
  | VNaN => VNull
  | VArr items =>
      VArr (map (fun x => match to_json x with
                          | VUndefined => VNull
                          | j => j
                          end) items)
  | VObj props =>
      VObj ((fix props_json (ps : list (string * JsVal)) : list (string * JsVal) :=
               match ps with
               | [] => []
               | p :: r =>
                   match to_json (snd p) with
                   | VUndefined => props_json r
                   | j => (fst p, j) :: props_json r
                   end
               end) props)
  | _ => v
  end.

(** Truthiness of the few shapes the routes test with [||]. *)
Definition truthy_str (s : option string) : bool :=
  match s with
  | Some s => negb (String.eqb s "")
  | None => false
  end.

Definition truthy_num (n : option Z) : bool :=
  match n with
  | Some n => negb (Z.eqb n 0)
  | None => false
  end.

(** [a || b] where [b] is always present. *)
Definition or_str (a : option string) (b : string) : string :=
  match a with
  | Some s => if String.eqb s "" then b else s
  | None => b
  end.

Definition or_num (a : option Z) (b : Z) : Z :=
  match a with
  | Some n => if Z.eqb n 0 then b else n
  | None => b
  end.

(** A property that may be absent ([undefined]), [null], or a value. *)
Inductive JsOpt (A : Type) : Type :=
  | Undef
  | Nul
  | Val (a : A).
Arguments Undef {A}.
Arguments Nul {A}.
Arguments Val {A} a.

Definition truthy_flag (s : JsOpt bool) : bool :=
  match s with
  | Val true => true
  | _ => false
  end.

(** ** Data model ([shared/schema.ts]) *)

(** A row of [db_connections] ([DbConnection]). *)
Record DbConnection : Type := mkDbConnection {
  id : Z;
  name : string;
  host : string;
  port : Z;
  database : string;
  username : string;
  password : string;
  ssl : option bool;
  isActive : option bool;
  lastConnected : option string
}.

(** [InsertDbConnection]: the insert schema omits [id], [lastConnected] and
    [isActive]; columns with a default are optional. *)
Record InsertDbConnection : Type := mkInsert {
  i_name : string;
  i_host : string;
  i_port : option Z;
  i_database : string;
  i_username : string;
  i_password : string;
  i_ssl : JsOpt bool
}.

(** [Partial<InsertDbConnection>]. *)
Record PartialDbConnection : Type := mkPartial {
  p_name : option string;
  p_host : option string;
  p_port : option Z;
  p_database : option string;
  p_username : option string;
  p_password : option string;
  p_ssl : JsOpt bool
}.

(** ** The [pg] driver boundary *)

Inductive SslOption : Type :=
  | SslOff                      (* ssl: false *)
  | SslRejectUnauthorizedFalse. (* ssl: { rejectUnauthorized: false } *)

(** The options object handed to [new Pool]. *)
Record PoolConfig : Type := mkPoolConfig {
  c_host : string;
  c_port : option Z;
  c_database : string;
  c_user : string;
  c_password : string;
  c_ssl : SslOption;
  connectionTimeoutMillis : option Z
}.

(** A [pg.Pool] object on the heap. *)
Record Pool : Type := mkPool {
  options : PoolConfig;
  ended : bool;      (* [end()] has been called on it *)
  checkedOut : nat   (* sessions acquired and not yet released *)
}.

(** A field description of a [pg] result; the driver reports more than the
    executor passes on. *)
Record FieldDef : Type := mkFieldDef {
  f_name : string;
  tableID : Z;
  columnID : Z;
  f_dataTypeID : Z;
  dataTypeSize : Z;
  format : string
}.

Record QueryResult : Type := mkQueryResult {
  rows : list JsObj;
  rowCount : JsVal;
  fields : list FieldDef
}.

Inductive StoreOp : Type := OpSelect | OpInsert | OpUpdate | OpDelete.

(** The environment: everything the code reaches through [pg] and drizzle.
    [None] from a fault oracle means the call succeeds.  A target is held
    fixed while one operation runs: whether it accepts a session, and how it
    answers a query, depend on the pool's options and on the query only.  A
    store fault depends on the kind of statement, not on the data. *)
Record Env : Type := mkEnv {
  connect_fault : PoolConfig -> option string;
  end_fault : PoolConfig -> option string;
  run_query : PoolConfig -> string -> list string -> string + QueryResult;
  store_fault : StoreOp -> option string
}.

(** What the driver did, in order: a ghost trace used to state which calls
    an operation issues. *)
Inductive Event : Type :=
  | ENewPool (h : nat) (cfg : PoolConfig)
  | EConnect (h : nat)
  | ERelease (h : nat)
  | EEnd (h : nat)
  | EQuery (h : nat) (sql : string) (params : list string).

(** ** State *)

Record World : Type := mkWorld {
  db_connections : gmap Z DbConnection; (* metadata table, by primary key *)
  db_serial : Z;                        (* next value of the [serial] id *)
  connectionPools : gmap Z nat;         (* the registry; values are heap addresses *)
  heap : list Pool;                     (* every Pool constructed so far *)
  trace : list Event
}.

(** A thrown value: an [Error] with its [message]; [zod] holds the issue
    details when the error is an instance of [ZodError]. *)
Record JsError : Type := mkJsError {
  zod : option JsVal;
  message : string
}.

Definition Error (m : string) : JsError := mkJsError None m.

Inductive Res (A : Type) : Type :=
  | Ok (a : A)
  | Throw (e : JsError).
Arguments Ok {A} a.
Arguments Throw {A} e.

Definition M (A : Type) : Type := World -> Res A * World.

Definition ret {A} (a : A) : M A := fun w => (Ok a, w).
Definition throw {A} (e : JsError) : M A := fun w => (Throw e, w).
Definition bind {A B} (m : M A) (k : A -> M B) : M B :=
  fun w => match m w with
           | (Ok a, w') => k a w'
           | (Throw e, w') => (Throw e, w')
           end.
(** [try { m } catch (e) { h e }] *)
Definition try_catch {A} (m : M A) (h : JsError -> M A) : M A :=
  fun w => match m w with
           | (Ok a, w') => (Ok a, w')
           | (Throw e, w') => h e w'
           end.
Definition get_world : M World := fun w => (Ok w, w).
Definition modify (f : World -> World) : M unit := fun w => (Ok tt, f w).

Declare Scope js_scope.
Delimit Scope js_scope with js.
Notation "x <- m ;; k" := (bind m (fun x => k))
  (at level 100, m at next level, right associativity) : js_scope.
Notation "m ;;; k" := (bind m (fun _ => k))
  (at level 100, right associativity) : js_scope.
Local Open Scope js_scope.

(** ** Record updates on the world *)

Definition set_db (f : gmap Z DbConnection -> gmap Z DbConnection) (w : World) : World :=
  mkWorld (f (db_connections w)) (db_serial w) (connectionPools w) (heap w) (trace w).
Definition set_serial (n : Z) (w : World) : World :=
  mkWorld (db_connections w) n (connectionPools w) (heap w) (trace w).
Definition set_registry (f : gmap Z nat -> gmap Z nat) (w : World) : World :=
  mkWorld (db_connections w) (db_serial w) (f (connectionPools w)) (heap w) (trace w).
Definition set_heap (f : list Pool -> list Pool) (w : World) : World :=
  mkWorld (db_connections w) (db_serial w) (connectionPools w) (f (heap w)) (trace w).
Definition emit (e : Event) (w : World) : World :=
  mkWorld (db_connections w) (db_serial w) (connectionPools w) (heap w) (trace w ++ [e]).

(** ** [pg.Pool] operations *)

(** [new Pool(cfg)]: a fresh object; nothing is connected yet. *)
Definition new_Pool (cfg : PoolConfig) : M nat :=
  fun w =>
    let h := length (heap w) in
    (Ok h, emit (ENewPool h cfg) (set_heap (fun hp => hp ++ [mkPool cfg false 0]) w)).

Definition dangling {A} : M A :=
  throw (Error "Cannot read properties of undefined").

(** [await pool.connect()] *)
Definition pool_connect (env : Env) (h : nat) : M unit :=
  fun w =>
    match heap w !! h with
    | None => dangling w
    | Some p =>
        let w1 := emit (EConnect h) w in
        match connect_fault env (options p) with
        | Some msg => (Throw (Error msg), w1)
        | None =>
            (Ok tt, set_heap (fun hp =>
               <[h := mkPool (options p) (ended p) (S (checkedOut p))]> hp) w1)
        end
    end.

(** [client.release()] *)
Definition client_release (h : nat) : M unit :=
  fun w =>
    match heap w !! h with
    | None => dangling w
    | Some p =>
        (Ok tt, set_heap (fun hp =>
           <[h := mkPool (options p) (ended p) (Nat.pred (checkedOut p))]> hp)
           (emit (ERelease h) w))
    end.

(** [await pool.end()]: the pool is marked as ending whether or not the
    driver then reports a failure. *)
Definition pool_end (env : Env) (h : nat) : M unit :=
  fun w =>
    match heap w !! h with
    | None => dangling w
    | Some p =>
        let w1 := set_heap (fun hp =>
                    <[h := mkPool (options p) true (checkedOut p)]> hp)
                    (emit (EEnd h) w) in
        match end_fault env (options p) with
        | Some msg => (Throw (Error msg), w1)
        | None => (Ok tt, w1)
        end
    end.

(** [await pool.query(sql, params)] *)
Definition pool_query (env : Env) (h : nat) (sql : string) (params : list string)
  : M QueryResult :=
  fun w =>
    match heap w !! h with
    | None => dangling w
    | Some p =>
        let w1 := emit (EQuery h sql params) w in
        match run_query env (options p) sql params with
        | inl msg => (Throw (Error msg), w1)
        | inr r => (Ok r, w1)
        end
    end.

(** ** The metadata store (drizzle over [db_connections]) *)

Definition store_call (env : Env) (op : StoreOp) : M unit :=
  match store_fault env op with
  | Some msg => throw (Error msg)
  | None => ret tt
  end.

(** [ORDER BY name]: a stable insertion sort on the name column. *)
Fixpoint insert_by_name (c : DbConnection) (l : list DbConnection) : list DbConnection :=
  match l with
  | [] => [c]
  | d :: r =>
      if String.leb (name c) (name d) then c :: l else d :: insert_by_name c r
  end.

Definition order_by_name (l : list DbConnection) : list DbConnection :=
  foldr insert_by_name [] l.

Definition insert_row (serial : Z) (c : InsertDbConnection) : DbConnection :=
  {| id := serial;
     name := i_name c;
     host := i_host c;
     port := default 5432 (i_port c);
     database := i_database c;
     username := i_username c;
     password := i_password c;
     ssl := match i_ssl c with Undef => Some false | Nul => None | Val b => Some b end;
     isActive := Some false;
     lastConnected := None |}.

(** [.set(partial)]: absent properties leave the column alone. *)
Definition update_row (u : PartialDbConnection) (r : DbConnection) : DbConnection :=
  {| id := id r;
     name := default (name r) (p_name u);
     host := default (host r) (p_host u);
     port := default (port r) (p_port u);
     database := default (database r) (p_database u);
     username := default (username r) (p_username u);
     password := default (password r) (p_password u);
     ssl := match p_ssl u with Undef => ssl r | Nul => None | Val b => Some b end;
     isActive := isActive r;
     lastConnected := lastConnected r |}.

(** ** [DatabaseStorage] *)

Definition ssl_option (truthy : bool) : SslOption :=
  if truthy then SslRejectUnauthorizedFalse else SslOff.

Definition getConnections (env : Env) : M (list DbConnection) :=
  store_call env OpSelect ;;;
  w <- get_world ;;
  ret (order_by_name (snd <$> map_to_list (db_connections w))).

Definition getConnection (env : Env) (cid : Z) : M (option DbConnection) :=
  store_call env OpSelect ;;;
  w <- get_world ;;
  ret (db_connections w !! cid).

Definition createConnection (env : Env) (connection : InsertDbConnection)
  : M DbConnection :=
  store_call env OpInsert ;;;
  w <- get_world ;;
  let newConnection := insert_row (db_serial w) connection in
  modify (fun w => set_serial (db_serial w + 1)
                     (set_db (insert (db_serial w) newConnection) w)) ;;;
  ret newConnection.

(** The pool configuration both [getConnectionPool] and [testConnection]
    build from a profile, up to the timeout. *)
Definition pool_options (h : string) (p : option Z) (d u pw : string) (s : bool)
    (timeout : option Z) : PoolConfig :=
  {| c_host := h; c_port := p; c_database := d; c_user := u; c_password := pw;
     c_ssl := ssl_option s; connectionTimeoutMillis := timeout |}.

(** [getConnectionPool], first segment: the cache check, up to the
    [await this.getConnection(...)]. *)
Definition cached_pool (connectionId : Z) (w : World) : option nat :=
  connectionPools w !! connectionId.

(** [getConnectionPool], second segment: from the profile lookup on. *)
Definition construct_pool (env : Env) (connectionId : Z) : M nat :=
  connection <- getConnection env connectionId ;;
  match connection with
  | None =>
      throw (Error ("Connection with ID " +:+ pretty connectionId +:+ " not found"))
  | Some connection =>
      pool <- new_Pool (pool_options (host connection) (Some (port connection))
                          (database connection) (username connection)
                          (password connection)
                          (bool_decide (ssl connection = Some true)) None) ;;
      modify (set_registry (insert connectionId pool)) ;;;
      ret pool
  end.

Definition getConnectionPool (env : Env) (connectionId : Z) : M nat :=
  fun w =>
    match cached_pool connectionId w with
    | Some pool => (Ok pool, w)
    | None => construct_pool env connectionId w
    end.

Definition updateConnection (env : Env) (cid : Z) (connection : PartialDbConnection)
  : M (option DbConnection) :=
  store_call env OpUpdate ;;;
  w <- get_world ;;
  let updatedConnection := update_row connection <$> (db_connections w !! cid) in
  modify (set_db (fun t => match updatedConnection with
                           | Some r => <[cid := r]> t
                           | None => t
                           end)) ;;;
  (* If the connection details changed, remove the existing pool *)
  w <- get_world ;;
  (if bool_decide (is_Some (connectionPools w !! cid))
   then modify (set_registry (delete cid))
   else ret tt) ;;;
  ret updatedConnection.

Definition deleteConnection (env : Env) (cid : Z) : M bool :=
  store_call env OpDelete ;;;
  w <- get_world ;;
  let result := db_connections w !! cid in
  modify (set_db (delete cid)) ;;;
  (* Clean up the connection pool if it exists *)
  w <- get_world ;;
  match connectionPools w !! cid with
  | Some pool =>
      pool_end env pool ;;;
      modify (set_registry (delete cid))
  | None => ret tt
  end ;;;
  ret (bool_decide (is_Some result)).

Definition testConnection (env : Env) (connection : InsertDbConnection) : M bool :=
  testPool <- new_Pool (pool_options (i_host connection) (i_port connection)
                          (i_database connection) (i_username connection)
                          (i_password connection) (truthy_flag (i_ssl connection))
                          (Some 5000)) ;;
  try_catch
    (pool_connect env testPool ;;;
     client_release testPool ;;;
     pool_end env testPool ;;;
     ret true)
    (fun error =>
       try_catch (pool_end env testPool) (fun endError => ret tt) ;;;
       ret false).

(** ** SQL text

    The catalog queries are constant strings with one placeholder [$1]; the
    white space is that of the template literals in the source. *)

Definition columns_sql : string := "
      SELECT 
        column_name, 
        data_type,
        character_maximum_length,
        column_default,
        is_nullable
      FROM 
        information_schema.columns
      WHERE 
        table_schema = 'public' 
        AND table_name = $1
      ORDER BY 
        ordinal_position;
    ".

Definition primary_keys_sql : string := "
      SELECT
        kcu.column_name
      FROM
        information_schema.table_constraints tc
        JOIN information_schema.key_column_usage kcu
          ON tc.constraint_name = kcu.constraint_name
          AND tc.table_schema = kcu.table_schema
      WHERE
        tc.constraint_type = 'PRIMARY KEY'
        AND tc.table_schema = 'public'
        AND tc.table_name = $1;
    ".

Definition foreign_keys_sql : string := "
      SELECT
        kcu.column_name,
        ccu.table_name AS foreign_table_name,
        ccu.column_name AS foreign_column_name
      FROM
        information_schema.table_constraints tc
        JOIN information_schema.key_column_usage kcu
          ON tc.constraint_name = kcu.constraint_name
          AND tc.table_schema = kcu.table_schema
        JOIN information_schema.constraint_column_usage ccu
          ON ccu.constraint_name = tc.constraint_name
          AND ccu.table_schema = tc.table_schema
      WHERE
        tc.constraint_type = 'FOREIGN KEY'
        AND tc.table_schema = 'public'
        AND tc.table_name = $1;
    ".

Definition indexes_sql : string := "
      SELECT
        indexname,
        indexdef
      FROM
        pg_indexes
      WHERE
        schemaname = 'public'
        AND tablename = $1;
    ".

Definition dq : string := String "034"%char EmptyString.

(** The row-count query: the table name goes between two double quotes. *)
Definition count_sql (table : string) : string :=
  "SELECT COUNT(*) FROM " +:+ dq +:+ table +:+ dq +:+ ";".

(** The page query of [getTableData]. *)
Definition page_sql (table : string) (pageSize offset : Z) : string :=
  "
      SELECT * FROM " +:+ dq +:+ table +:+ dq +:+ "
      LIMIT " +:+ pretty pageSize +:+ " OFFSET " +:+ pretty offset +:+ ";
    ".

(** ** [parseInt(v, 10)] *)

(** [ToString]; integers print in decimal (numbers below 1e21). *)
Fixpoint js_to_string (v : JsVal) : string :=
  match v with
  | VUndefined => "undefined"
  | VNull => "null"
  | VBool b => if b then "true" else "false"
  | VNum n => pretty n
  | VNaN => "NaN"
  | VStr s => s
  | VArr items =>
      (fix join (l : list JsVal) : string :=
         match l with
         | [] => ""
         | x :: r =>
             match x with
             | VUndefined | VNull => ""
             | _ => js_to_string x
             end +:+
             match r with
             | [] => ""
             | _ => "," +:+ join r
             end
         end) items
  | VObj _ => "[object Object]"
  end.

Definition is_space (c : ascii) : bool :=
  let n := N_of_ascii c in
  (N.eqb n 32 || (N.leb 9 n && N.leb n 13))%bool.

Fixpoint skip_spaces (s : string) : string :=
  match s with
  | String c r => if is_space c then skip_spaces r else s
  | EmptyString => s
  end.

Definition digit_value (c : ascii) : option Z :=
  let n := N_of_ascii c in
  if (N.leb 48 n && N.leb n 57)%bool then Some (Z.of_N n - 48) else None.

(** The value of the longest prefix of decimal digits. *)
Fixpoint digits_value (acc : Z) (s : string) : Z :=
  match s with
  | String c r =>
      match digit_value c with
      | Some d => digits_value (10 * acc + d) r
      | None => acc
      end
  | EmptyString => acc
  end.

Definition starts_with_digit (s : string) : bool :=
  match s with
  | String c _ => bool_decide (is_Some (digit_value c))
  | EmptyString => false
  end.

(** [None] is [NaN]. *)
Definition parse_int (s : string) : option Z :=
  let s := skip_spaces s in
  let '(sign, s) :=
    match s with
    | String "-"%char r => (-1, r)
    | String "+"%char r => (1, r)
    | _ => (1, s)
    end in
  if starts_with_digit s then Some (sign * digits_value 0 s) else None.

Definition parseInt (v : JsVal) : option Z := parse_int (js_to_string v).

(** ** Introspection, execution, pagination *)

Record TableSchema : Type := mkTableSchema {
  ts_name : string;
  columns : list JsObj;
  primaryKeys : list JsVal;
  foreignKeys : list JsObj;
  indexes : list JsObj;
  recordCount : option Z
}.

(** [rows[0].count] *)
Definition first_count (r : QueryResult) : M JsVal :=
  match rows r with
  | row :: _ => ret (obj_get "count" row)
  | [] => throw (Error "Cannot read properties of undefined (reading 'count')")
  end.

Definition getTableSchema (env : Env) (connectionId : Z) (table : string)
  : M TableSchema :=
  pool <- getConnectionPool env connectionId ;;
  columnsResult <- pool_query env pool columns_sql [table] ;;
  pkResult <- pool_query env pool primary_keys_sql [table] ;;
  let primaryKeys := map (obj_get "column_name") (rows pkResult) in
  fkResult <- pool_query env pool foreign_keys_sql [table] ;;
  indexResult <- pool_query env pool indexes_sql [table] ;;
  countResult <- pool_query env pool (count_sql table) [] ;;
  count <- first_count countResult ;;
  ret {| ts_name := table;
         columns := rows columnsResult;
         primaryKeys := primaryKeys;
         foreignKeys := rows fkResult;
         indexes := rows indexResult;
         recordCount := parseInt count |}.

Record ExecResult : Type := mkExecResult {
  x_rows : list JsObj;
  x_rowCount : JsVal;
  x_fields : list (string * Z)   (* name, dataTypeID *)
}.

Definition executeQuery (env : Env) (connectionId : Z) (query : string)
  : M ExecResult :=
  pool <- getConnectionPool env connectionId ;;
  try_catch
    (result <- pool_query env pool query [] ;;
     ret {| x_rows := rows result;
            x_rowCount := rowCount result;
            x_fields := map (fun field => (f_name field, f_dataTypeID field))
                          (fields result) |})
    (fun error =>
       throw (Error ("Query execution failed: " +:+ message error))).

Record TableData : Type := mkTableData {
  data : list JsObj;
  total : option Z
}.

(** [page] and [pageSize] are optional arguments with defaults 1 and 50. *)
Definition getTableData (env : Env) (connectionId : Z) (table : string)
    (page pageSize : option Z) : M TableData :=
  let page := default 1 page in
  let pageSize := default 50 pageSize in
  pool <- getConnectionPool env connectionId ;;
  countResult <- pool_query env pool (count_sql table) [] ;;
  count <- first_count countResult ;;
  let total := parseInt count in
  let offset := (page - 1) * pageSize in
  dataResult <- pool_query env pool (page_sql table pageSize offset) [] ;;
  ret {| data := rows dataResult; total := total |}.

(** ** Cooperative interleaving of [getConnectionPool]

    An [async] call runs synchronously up to its first [await] and is resumed
    later; between the two segments other calls may run.  [getConnectionPool]
    has one suspension point, the [await this.getConnection(connectionId)]
    after the cache check. *)

Inductive Task : Type :=
  | Called (connectionId : Z)     (* invoked, nothing run yet *)
  | Suspended (connectionId : Z)  (* cache missed, waiting for the profile *)
  | Settled (r : Res nat).        (* the returned promise has settled *)

Definition step_task (env : Env) (t : Task) (w : World) : Task * World :=
  match t with
  | Called cid =>
      match cached_pool cid w with
      | Some pool => (Settled (Ok pool), w)
      | None => (Suspended cid, w)
      end
  | Suspended cid =>
      let '(r, w') := construct_pool env cid w in (Settled r, w')
  | Settled _ => (t, w)
  end.

(** Run the tasks named by a schedule, one segment per entry. *)
Fixpoint run_schedule (env : Env) (sched : list nat) (ts : list Task) (w : World)
  : list Task * World :=
  match sched with
  | [] => (ts, w)
  | i :: sched' =>
      match ts !! i with
      | Some t =>
          let '(t', w') := step_task env t w in
          run_schedule env sched' (<[i := t']> ts) w'
      | None => run_schedule env sched' ts w
      end
  end.

Definition is_settled (t : Task) : bool :=
  match t with Settled _ => true | _ => false end.

Definition returned (t : Task) : option nat :=
  match t with Settled (Ok h) => Some h | _ => None end.

(** Pools constructed between two worlds. *)
Definition pools_constructed (w w' : World) : nat :=
  (length (heap w') - length (heap w))%nat.

(** Calls that do not overlap: each runs both segments before the next starts. *)
Definition sequential (n : nat) : list nat :=
  flat_map (fun i => [i; i]) (seq 0 n).

(** ** [routes.ts]: the connection handlers *)

Record Response : Type := mkResponse {
  status : Z;
  body : option JsVal   (* the JSON sent, [None] for [end()] *)
}.

(** [res.status(code).json(v)] *)
Definition json (code : Z) (v : JsVal) : Response :=
  mkResponse code (Some (to_json v)).

(** The outcome of [schema.parse(req.body)]. *)
Inductive Parsed (A : Type) : Type :=
  | Invalid (details : JsVal)
  | Valid (a : A).
Arguments Invalid {A} details.
Arguments Valid {A} a.

Definition zod_parse {A} (b : Parsed A) : M A :=
  match b with
  | Invalid details => throw (mkJsError (Some details) "Validation error")
  | Valid a => ret a
  end.

(** [s || d] on strings. *)
Definition or_default (s d : string) : string :=
  if String.eqb s "" then d else s.

Definition handleError (err : JsError) : Response :=
  match zod err with
  | Some details =>
      json 400 (VObj [("message", VStr "Validation error"); ("errors", details)])
  | None =>
      json 500 (VObj [("message", VStr (or_default (message err) "Internal Server Error"))])
  end.

Definition js_bool (b : option bool) : JsVal :=
  match b with Some b => VBool b | None => VNull end.

(** A selected row as a JavaScript object, columns in table order. *)
Definition row_object (c : DbConnection) : JsObj :=
  [ ("id", VNum (id c)); ("name", VStr (name c)); ("host", VStr (host c));
    ("port", VNum (port c)); ("database", VStr (database c));
    ("username", VStr (username c)); ("password", VStr (password c));
    ("ssl", js_bool (ssl c)); ("isActive", js_bool (isActive c));
    ("lastConnected", match lastConnected c with Some t => VStr t | None => VNull end) ].

Definition not_found : Response :=
  json 404 (VObj [("message", VStr "Connection not found")]).

Definition connection_error (connectionErr : JsError) (fallback : string) : Response :=
  json 400 (VObj [("message", VStr (or_default (message connectionErr) fallback));
                  ("error", VUndefined)]).

(** GET /api/connections *)
Definition list_connections (env : Env) : M Response :=
  try_catch
    (connections <- getConnections env ;;
     let safeConnections :=
       map (fun conn => VObj (obj_set "password" VUndefined (row_object conn)))
         connections in
     ret (json 200 (VArr safeConnections)))
    (fun err => ret (handleError err)).

(** GET /api/connections/:id *)
Definition get_connection (env : Env) (cid : Z) : M Response :=
  try_catch
    (connection <- getConnection env cid ;;
     match connection with
     | None => ret not_found
     | Some connection =>
         let safeConnection := obj_omit "password" (row_object connection) in
         ret (json 200 (VObj safeConnection))
     end)
    (fun err => ret (handleError err)).

(** POST /api/connections *)
Definition create_connection (env : Env) (req_body : Parsed InsertDbConnection)
  : M Response :=
  try_catch
    (connection <- zod_parse req_body ;;
     try_catch
       (testConnection env connection ;;;
        newConnection <- createConnection env connection ;;
        let safeConnection := obj_omit "password" (row_object newConnection) in
        ret (json 201 (VObj safeConnection)))
       (fun connectionErr =>
          ret (connection_error connectionErr "Failed to connect to database")))
    (fun err => ret (handleError err)).

Definition connection_details_changing (updateData : PartialDbConnection) : bool :=
  truthy_str (p_host updateData) || truthy_num (p_port updateData)
  || truthy_str (p_database updateData) || truthy_str (p_username updateData)
  || truthy_str (p_password updateData)
  || match p_ssl updateData with Undef => false | _ => true end.

Definition merged_for_test (updateData : PartialDbConnection)
    (currentConnection : DbConnection) : InsertDbConnection :=
  {| i_name := or_str (p_name updateData) (name currentConnection);
     i_host := or_str (p_host updateData) (host currentConnection);
     i_port := Some (or_num (p_port updateData) (port currentConnection));
     i_database := or_str (p_database updateData) (database currentConnection);
     i_username := or_str (p_username updateData) (username currentConnection);
     i_password := or_str (p_password updateData) (password currentConnection);
     i_ssl := match p_ssl updateData with
              | Undef => match ssl currentConnection with
                         | Some b => Val b
                         | None => Nul
                         end
              | s => s
              end |}.

(** PUT /api/connections/:id; [Some r] from the first part is an early
    [return res...]. *)
Definition update_connection (env : Env) (cid : Z)
    (req_body : Parsed PartialDbConnection) : M Response :=
  try_catch
    (updateData <- zod_parse req_body ;;
     early <-
       (if connection_details_changing updateData then
          currentConnection <- getConnection env cid ;;
          match currentConnection with
          | None => ret (Some not_found)
          | Some currentConnection =>
              try_catch
                (testConnection env (merged_for_test updateData currentConnection) ;;;
                 ret None)
                (fun connectionErr =>
                   ret (Some (connection_error connectionErr
                     "Failed to connect to database with the updated credentials")))
          end
        else ret None) ;;
     match early with
     | Some r => ret r
     | None =>
         updatedConnection <- updateConnection env cid updateData ;;
         match updatedConnection with
         | None => ret not_found
         | Some updatedConnection =>
             let safeConnection := obj_omit "password" (row_object updatedConnection) in
             ret (json 200 (VObj safeConnection))
         end
     end)
    (fun err => ret (handleError err)).

(** DELETE /api/connections/:id *)
Definition delete_connection (env : Env) (cid : Z) : M Response :=
  try_catch
    (deleted <- deleteConnection env cid ;;
     if deleted : bool then ret (mkResponse 204 None) else ret not_found)
    (fun err => ret (handleError err)).

(** * The rest of the server

    The functions of [server/storage.ts] and [server/routes.ts] that the
    claims do not name, and the start-up code of [server/index.ts]. *)

(** ** [DatabaseStorage]: listing databases and tables *)

Definition list_databases_sql : string :=
  "SELECT datname FROM pg_database WHERE datistemplate = false;".

Definition list_tables_sql : string := "
      SELECT table_name 
      FROM information_schema.tables 
      WHERE table_schema = 'public' 
      ORDER BY table_name;
    ".

Definition listDatabases (env : Env) (connectionId : Z) : M (list JsVal) :=
  pool <- getConnectionPool env connectionId ;;
  result <- pool_query env pool list_databases_sql [] ;;
  ret (map (obj_get "datname") (rows result)).

Definition listTables (env : Env) (connectionId : Z) : M (list JsVal) :=
  pool <- getConnectionPool env connectionId ;;
  result <- pool_query env pool list_tables_sql [] ;;
  ret (map (obj_get "table_name") (rows result)).

(** ** Sequences of calls to the storage object *)

Inductive StorageCall : Type :=
  | CallGetConnections
  | CallGetConnection (cid : Z)
  | CallCreateConnection (connection : InsertDbConnection)
  | CallUpdateConnection (cid : Z) (connection : PartialDbConnection)
  | CallDeleteConnection (cid : Z)
  | CallTestConnection (connection : InsertDbConnection)
  | CallListDatabases (connectionId : Z)
  | CallListTables (connectionId : Z)
  | CallGetTableSchema (connectionId : Z) (table : string)
  | CallExecuteQuery (connectionId : Z) (query : string)
  | CallGetTableData (connectionId : Z) (table : string) (page pageSize : option Z).

(** The world a call leaves behind, whether it resolved or rejected. *)
Definition after_call (env : Env) (call : StorageCall) (w : World) : World :=
  match call with
  | CallGetConnections => snd (getConnections env w)
  | CallGetConnection cid => snd (getConnection env cid w)
  | CallCreateConnection c => snd (createConnection env c w)
  | CallUpdateConnection cid u => snd (updateConnection env cid u w)
  | CallDeleteConnection cid => snd (deleteConnection env cid w)
  | CallTestConnection c => snd (testConnection env c w)
  | CallListDatabases cid => snd (listDatabases env cid w)
  | CallListTables cid => snd (listTables env cid w)
  | CallGetTableSchema cid t => snd (getTableSchema env cid t w)
  | CallExecuteQuery cid q => snd (executeQuery env cid q w)
  | CallGetTableData cid t p s => snd (getTableData env cid t p s w)
  end.

(** Calls that run one after another. *)
Definition after_calls (env : Env) (calls : list StorageCall) (w : World) : World :=
  fold_left (fun w call => after_call env call w) calls w.

(** ** [routes.ts]: the remaining connection and database handlers *)

(** POST /api/connections/test *)
Definition test_connection_route (env : Env) (req_body : Parsed InsertDbConnection)
  : M Response :=
  try_catch
    (connection <- zod_parse req_body ;;
     try_catch
       (testConnection env connection ;;;
        ret (json 200 (VObj [("success", VBool true)])))
       (fun connectionErr =>
          ret (json 400 (VObj
            [("success", VBool false);
             ("message", VStr (or_default (message connectionErr)
                                 "Failed to connect to database"));
             ("error", VUndefined)]))))
    (fun err => ret (handleError err)).



(** [!v]: the falsy values. *)
Definition falsy (v : JsVal) : bool :=
  match v with
  | VUndefined | VNull | VNaN => true
  | VBool b => negb b
  | VNum n => Z.eqb n 0
  | VStr s => String.eqb s ""
  | VArr _ | VObj _ => false
  end.

Definition exec_result_object (r : ExecResult) : JsVal :=
  VObj [ ("rows", VArr (map VObj (x_rows r)));
         ("rowCount", x_rowCount r);
         ("fields", VArr (map (fun f => VObj [("name", VStr (fst f));
                                              ("dataTypeID", VNum (snd f))])
                            (x_fields r))) ].

(** POST /api/query/:connectionId; [query] is [req.body.query]. *)
Definition query_route (env : Env) (connectionId : Z) (query : JsVal) : M Response :=
  try_catch
    (match query with
     | VStr q =>
         if falsy query
         then ret (json 400 (VObj [("message", VStr "Query is required")]))
         else
           result <- executeQuery env connectionId q ;;
           ret (json 200 (exec_result_object result))
     | _ => ret (json 400 (VObj [("message", VStr "Query is required")]))
     end)
    (fun err => ret (handleError err)).

(** ** Saved queries ([shared/schema.ts], [storage.ts], [routes.ts])

    The [saved_queries] table lives in the metadata store beside
    [db_connections]; the functions below touch nothing else, so they run
    over the table alone.  [sq_now] is the store's clock, read by the
    [defaultNow()] of [createdAt]. *)

Record SavedQuery : Type := mkSavedQuery {
  sq_id : Z;
  sq_name : string;
  sq_query : string;
  sq_connectionId : option Z;
  sq_createdAt : option string
}.



Record QueryTable : Type := mkQueryTable {
  saved_queries : gmap Z SavedQuery;
  sq_serial : Z;
  sq_now : string
}.

(** [ORDER BY name] on saved queries: a stable insertion sort. *)
Fixpoint insert_query_by_name (q : SavedQuery) (l : list SavedQuery) : list SavedQuery :=
  match l with
  | [] => [q]
  | d :: r =>
      if String.leb (sq_name q) (sq_name d) then q :: l
      else d :: insert_query_by_name q r
  end.

Definition order_queries_by_name (l : list SavedQuery) : list SavedQuery :=
  foldr insert_query_by_name [] l.

Definition store_try {A} (env : Env) (op : StoreOp) (t : QueryTable)
    (k : Res A * QueryTable) : Res A * QueryTable :=
  match store_fault env op with
  | Some msg => (Throw (Error msg), t)
  | None => k
  end.

(** [connectionId] is [None] when the argument is [undefined] or [NaN]; the
    function only tests it for truth. *)
Definition getSavedQueries (env : Env) (connectionId : option Z) (t : QueryTable)
  : Res (list SavedQuery) * QueryTable :=
  store_try env OpSelect t
    (let all := snd <$> map_to_list (saved_queries t) in
     if truthy_num connectionId then
       (Ok (order_queries_by_name
              (filter (fun q => sq_connectionId q = connectionId) all)), t)
     else (Ok (order_queries_by_name all), t)).







Definition query_object (q : SavedQuery) : JsObj :=
  [ ("id", VNum (sq_id q)); ("name", VStr (sq_name q)); ("query", VStr (sq_query q));
    ("connectionId", match sq_connectionId q with Some c => VNum c | None => VNull end);
    ("createdAt", match sq_createdAt q with Some d => VStr d | None => VNull end) ].

(** GET /api/saved-queries; the argument is [req.query.connectionId]. *)
Definition saved_queries_route (env : Env) (connectionId : option string)
    (t : QueryTable) : Res Response * QueryTable :=
  let connectionId :=
    match connectionId with
    | Some s => if truthy_str (Some s) then parse_int s else None
    | None => None
    end in
  match getSavedQueries env connectionId t with
  | (Ok queries, t') => (Ok (json 200 (VArr (VObj ∘ query_object <$> queries))), t')
  | (Throw err, t') => (Ok (handleError err), t')
  end.

(** ** [server/index.ts]: the request log and the port search *)

(** A JavaScript string as its UTF-16 code units; [length] and [slice]
    count these. *)
Definition units (s : string) : list N := N_of_ascii <$> list_ascii_of_string s.

(** The one code unit of the horizontal ellipsis. *)
Definition ellipsis : N := 8230.

(** The line logged when a response finishes.  [captured] is the
    [JSON.stringify] text of the body passed to [res.json], absent when no
    body was captured or it was falsy.  Requests outside [/api] log
    nothing. *)
Definition log_line (is_api : bool) (method path : list N) (statusCode duration : Z)
    (captured : option (list N)) : option (list N) :=
  if is_api then
    let logLine :=
      method ++ units " " ++ path ++ units " " ++ units (pretty statusCode)
      ++ units " in " ++ units (pretty duration) ++ units "ms" in
    let logLine :=
      match captured with
      | Some text => logLine ++ units " :: " ++ text
      | None => logLine
      end in
    Some (if (80 <? length logLine)%nat then take 79 logLine ++ [ellipsis]
          else logLine)
  else None.

(** What [server.listen] leads to: the [listening] event or an [error]
    event with its code. *)
Inductive ListenOutcome : Type :=
  | Listening
  | AddrInUse          (* EADDRINUSE *)
  | NotSupported       (* ENOTSUP *)
  | OtherError (code : string).

Inductive StartResult : Type :=
  | Serving (port : Z) (host : string)
  | Crashed (port : Z) (host : string).   (* the error is rethrown *)

(** [startListening] inside [tryListenOnPort]: each [error] event may call
    it again; [fuel] bounds the number of [listen] calls.  The result comes
    with the addresses tried, in order. *)
Fixpoint startListening (net : Z -> string -> ListenOutcome) (maxAttempts : nat)
    (fuel : nat) (currentAttempt : nat) (port : Z) (useHost : string)
  : option (StartResult * list (Z * string)) :=
  match fuel with
  | O => None
  | S fuel' =>
      let tried rest :=
        match rest with
        | Some (r, l) => Some (r, (port, useHost) :: l)
        | None => None
        end in
      match net port useHost with
      | Listening => Some (Serving port useHost, [(port, useHost)])
      | AddrInUse =>
          if (currentAttempt <? maxAttempts)%nat then
            tried (startListening net maxAttempts fuel' (S currentAttempt)
                     (port + 1) useHost)
          else Some (Crashed port useHost, [(port, useHost)])
      | NotSupported =>
          if String.eqb useHost "0.0.0.0" then
            tried (startListening net maxAttempts fuel' currentAttempt port "127.0.0.1")
          else Some (Crashed port useHost, [(port, useHost)])
      | OtherError _ => Some (Crashed port useHost, [(port, useHost)])
      end
  end.

(** [tryListenOnPort(portToTry, maxAttempts = 5)] *)
Definition tryListenOnPort (net : Z -> string -> ListenOutcome) (fuel : nat)
    (portToTry : Z) (maxAttempts : option nat) (host : string)
  : option (StartResult * list (Z * string)) :=
  startListening net (default 5%nat maxAttempts) fuel 0 portToTry host.

(** * The client

    The callers of the API in [client/src]: the export of query results and
    table data ([handleDownload] of the SQL editor, [handleExport] of the
    table viewer) and the pager of the table viewer. *)

(** ** Export: quoting cells *)

(** [s.replace(/q/g, qq)]: every occurrence of the quote character is
    doubled. *)
Fixpoint double_quotes (q : ascii) (s : string) : string :=
  match s with
  | EmptyString => EmptyString
  | String c r =>
      if Ascii.eqb c q then String q (String q (double_quotes q r))
      else String c (double_quotes q r)
  end.

Definition quoted (q : ascii) (s : string) : string :=
  String q (double_quotes q s +:+ String q EmptyString).

Section Exporting.
(** [JSON.stringify], used for cells that hold objects or arrays. *)
Variable stringify : JsVal -> string.

(** One cell of the CSV export; [undefined] and [null] items print as the
    empty string when the row is joined. *)
Definition csv_cell (value : JsVal) : string :=
  match value with
  | VNull | VUndefined => ""
  | VObj _ | VArr _ => quoted "034"%char (stringify value)
  | VStr s => quoted "034"%char s
  | _ => js_to_string value
  end.

(** One value of the SQL export. *)
Definition sql_value (value : JsVal) : string :=
  match value with
  | VNull => "NULL"
  | VUndefined => ""
  | VObj _ | VArr _ => quoted "'"%char (stringify value)
  | VStr s => quoted "'"%char s
  | VBool b => if b then "TRUE" else "FALSE"
  | _ => js_to_string value
  end.

End Exporting.

(** ** The pager of the table viewer *)

(** [Math.ceil(total / pageSize)] for a positive page size. *)
Definition total_pages (total pageSize : Z) : Z := - ((- total) / pageSize).

(** [Array.from(new Set(pages))]: first occurrences, in order. *)
Fixpoint unique (seen pages : list Z) : list Z :=
  match pages with
  | [] => []
  | p :: r =>
      if bool_decide (p ∈ seen) then unique seen r
      else p :: unique (p :: seen) r
  end.

(** [.sort((a, b) => a - b)] *)
Fixpoint insert_number (n : Z) (l : list Z) : list Z :=
  match l with
  | [] => [n]
  | m :: r => if n <=? m then n :: l else m :: insert_number n r
  end.

Definition sort_numbers (l : list Z) : list Z := foldr insert_number [] l.

Inductive PageItem : Type :=
  | PageNumber (n : Z)
  | Ellipsis.

(** The second loop of [getPageNumbers]; [previous] is [uniquePages[i - 1]]. *)
Fixpoint with_ellipsis (previous : option Z) (uniquePages : list Z) : list PageItem :=
  match uniquePages with
  | [] => []
  | p :: r =>
      match previous with
      | Some q => if q + 1 <? p then [Ellipsis] else []
      | None => []
      end ++ PageNumber p :: with_ellipsis (Some p) r
  end.

(** [getPageNumbers]; [total] is [tableData.total]. *)
Definition getPageNumbers (total pageSize page : Z) : list PageItem :=
  let totalPages := total_pages total pageSize in
  let lo := Z.max 2 (page - 1) in
  let hi := Z.min (totalPages - 1) (page + 1) in
  let pages :=
    [1] ++ seqZ lo (hi - lo + 1) ++ (if 1 <? totalPages then [totalPages] else []) in
  let uniquePages := sort_numbers (unique [] pages) in
  with_ellipsis None uniquePages.

(** What the user can do with the pager.  Handlers run one at a time, each
    on the state the previous one left. *)
Inductive PagerAction : Type :=
  | Previous
  | Next
  | Goto (n : Z)            (* a click on a page link *)
  | RowsPerPage (size : Z). (* the selector; it also resets the page *)

Record Pager : Type := mkPager {
  pg_page : Z;
  pg_pageSize : Z
}.

Definition pager_step (total : Z) (a : PagerAction) (s : Pager) : Pager :=
  match a with
  | Previous => mkPager (Z.max 1 (pg_page s - 1)) (pg_pageSize s)
  | Next =>
      if pg_page s * pg_pageSize s <? total
      then mkPager (pg_page s + 1) (pg_pageSize s)
      else s
  | Goto n => mkPager n (pg_pageSize s)
  | RowsPerPage size => mkPager 1 size
  end.

(** What the rendered pager offers: the links are those of
    [getPageNumbers], the selector has four sizes. *)
Definition offered (total : Z) (s : Pager) (a : PagerAction) : Prop :=
  match a with
  | Goto n => PageNumber n ∈ getPageNumbers total (pg_pageSize s) (pg_page s)
  | RowsPerPage size => size ∈ [10; 25; 50; 100]
  | _ => True
  end.

(** * Vocabulary of the statements, sample data and simulated targets

    Nothing below this point is code of the repository: these definitions
    name what the theorems say, give concrete worlds to run the code on, and
    simulate targets that answer the queries the code sends. *)

(** ** The prober *)

Definition probe_options (c : InsertDbConnection) : PoolConfig :=
  {| c_host := i_host c;
     c_port := i_port c;
     c_database := i_database c;
     c_user := i_username c;
     c_password := i_password c;
     c_ssl := if truthy_flag (i_ssl c) then SslRejectUnauthorizedFalse else SslOff;
     connectionTimeoutMillis := Some 5000 |}.

(** The world after a probe: one more pool on the heap, already ended and
    with no session checked out; store and registry as before. *)
Definition after_probe (c : InsertDbConnection) (w : World) (tr : list Event) : World :=
  mkWorld (db_connections w) (db_serial w) (connectionPools w)
    (heap w ++ [mkPool (probe_options c) true 0])
    (trace w ++ ENewPool (length (heap w)) (probe_options c) :: tr).

(** ** The registry *)

(** The options [getConnectionPool] builds from a stored profile: its six
    connection fields and nothing else. *)
Definition registry_options (c : DbConnection) : PoolConfig :=
  {| c_host := host c;
     c_port := Some (port c);
     c_database := database c;
     c_user := username c;
     c_password := password c;
     c_ssl := match ssl c with
              | Some true => SslRejectUnauthorizedFalse
              | _ => SslOff
              end;
     connectionTimeoutMillis := None |}.

(** The world after a cache miss on a stored profile. *)
Definition after_construct (cid : Z) (c : DbConnection) (w : World) : World :=
  mkWorld (db_connections w) (db_serial w)
    (<[cid := length (heap w)]> (connectionPools w))
    (heap w ++ [mkPool (registry_options c) false 0])
    (trace w ++ [ENewPool (length (heap w)) (registry_options c)]).

(** ** Sample data *)

Definition sample_profile : DbConnection :=
  {| id := 7; name := "orders"; host := "db.internal"; port := 5432;
     database := "shop"; username := "admin"; password := "s3cret";
     ssl := Some true; isActive := Some false; lastConnected := None |}.

Definition sample_insert : InsertDbConnection :=
  {| i_name := "orders"; i_host := "db.internal"; i_port := Some 5432;
     i_database := "shop"; i_username := "admin"; i_password := "s3cret";
     i_ssl := Val true |}.

(** A driver and store that never fail; queries are not answered. *)
Definition quiet_env : Env :=
  {| connect_fault := fun _ => None;
     end_fault := fun _ => None;
     run_query := fun _ _ _ => inl "relation does not exist";
     store_fault := fun _ => None |}.

(** One stored profile, nothing cached. *)
Definition stored_world : World :=
  mkWorld {[7 := sample_profile]} 8 ∅ [] [].

(** The same store, with pool 0 cached for profile 7. *)
Definition cached_world : World :=
  mkWorld {[7 := sample_profile]} 8 {[7 := 0%nat]}
    [mkPool (registry_options sample_profile) false 0]
    [ENewPool 0 (registry_options sample_profile)].

(** ** Concurrent first use *)

(** The single-flight property as the specification words it: whatever the
    interleaving, once all [n] calls for a stored, uncached profile have
    settled, exactly one pool was constructed and every call returned it. *)
Definition single_flight : Prop :=
  forall env w cid c (n : nat) sched ts w',
    connectionPools w !! cid = None ->
    db_connections w !! cid = Some c ->
    store_fault env OpSelect = None ->
    (0 < n)%nat ->
    run_schedule env sched (replicate n (Called cid)) w = (ts, w') ->
    forallb is_settled ts = true ->
    pools_constructed w w' = 1%nat
    /\ exists pool, Forall (fun t => returned t = Some pool) ts.

(** Two callers that both pass the cache check before either resumes. *)
Definition both_miss : list nat := [0; 1; 0; 1]%nat.

(** [n] callers that all pass the cache check before any of them resumes. *)
Definition all_miss (n : nat) : list nat := seq 0 n ++ seq 0 n.

(** The world after [k] constructions in a row for the same profile. *)
Definition after_constructs (cid : Z) (c : DbConnection) (k : nat) (w : World) : World :=
  Nat.iter k (after_construct cid c) w.

(** ** Eviction on update and on delete *)

Definition new_host : PartialDbConnection :=
  {| p_name := None; p_host := Some "db2.internal"; p_port := None;
     p_database := None; p_username := None; p_password := None;
     p_ssl := Undef |}.

(** ** Creating a profile *)

(** A target that refuses every connection attempt. *)
Definition refusing_env : Env :=
  {| connect_fault := fun _ => Some "connect ECONNREFUSED 10.0.0.9:5432";
     end_fault := fun _ => None;
     run_query := fun _ _ _ => inl "connect ECONNREFUSED 10.0.0.9:5432";
     store_fault := fun _ => None |}.

Definition empty_store : World := mkWorld ∅ 1 ∅ [] [].

(** ** The query executor *)

Definition int4_field (n : string) : FieldDef :=
  {| f_name := n; tableID := 0; columnID := 0; f_dataTypeID := 23;
     dataTypeSize := 4; format := "text" |}.

(** A target that evaluates [SELECT 1 AS x] and rejects everything else. *)
Definition select1_env : Env :=
  {| connect_fault := fun _ => None;
     end_fault := fun _ => None;
     run_query := fun _ sql _ =>
       if String.eqb sql "SELECT 1 AS x"
       then inr {| rows := [[("x", VNum 1)]]; rowCount := VNum 1;
                   fields := [int4_field "x"] |}
       else inl ("relation " +:+ dq +:+ "nonexistent_table" +:+ dq +:+ " does not exist");
     store_fault := fun _ => None |}.

(** ** The paginated reader *)



(** [LIMIT n OFFSET m] over the rows of a table. *)
Definition limit_offset (n m : Z) (R : list JsObj) : list JsObj :=
  take (Z.to_nat n) (drop (Z.to_nat m) R).

(** *** A simulated target holding one table *)









(** ** The schema introspector *)











(** *** A simulated catalog *)




(** ** Table names in SQL text *)







(** Events through which a run may talk to the driver. *)
Definition emits {A} (P : Event -> Prop) (m : M A) : Prop :=
  forall w, exists evs, trace (snd (m w)) = trace w ++ evs /\ Forall P evs.




(** ** Passwords in responses *)

(** A profile as the handlers send it: the row without its password. *)
Definition public_row (c : DbConnection) : JsObj :=
  [ ("id", VNum (id c)); ("name", VStr (name c)); ("host", VStr (host c));
    ("port", VNum (port c)); ("database", VStr (database c));
    ("username", VStr (username c));
    ("ssl", js_bool (ssl c)); ("isActive", js_bool (isActive c));
    ("lastConnected", match lastConnected c with Some t => VStr t | None => VNull end) ].

(** No object sent, at top level or as an array item, has a [password]
    property. *)
Definition password_free (v : JsVal) : Prop :=
  match v with
  | VObj o => obj_has "password" o = false
  | VArr items =>
      Forall (fun x => match x with
                       | VObj o => obj_has "password" o = false
                       | _ => True
                       end) items
  | _ => True
  end.

(** The handler answered, and what it sent is [password_free]. *)
Definition responds_password_free (out : Res Response * World) : Prop :=
  match fst out with
  | Ok r => match body r with
            | Some b => password_free b
            | None => True
            end
  | Throw _ => False
  end.

Definition response_password_free (r : Response) : Prop :=
  match body r with
  | Some b => password_free b
  | None => True
  end.

(** Blanking the stored passwords, and the password of a request. *)
Definition mask_password (c : DbConnection) : DbConnection :=
  mkDbConnection (id c) (name c) (host c) (port c) (database c) (username c)
    "" (ssl c) (isActive c) (lastConnected c).

Definition mask_store (w : World) : World := set_db (fmap mask_password) w.

Definition mask_insert (c : InsertDbConnection) : InsertDbConnection :=
  mkInsert (i_name c) (i_host c) (i_port c) (i_database c) (i_username c)
    "" (i_ssl c).

(** A non-empty password becomes another non-empty one, so the request
    still counts as changing connection details. *)
Definition mask_partial (u : PartialDbConnection) : PartialDbConnection :=
  mkPartial (p_name u) (p_host u) (p_port u) (p_database u) (p_username u)
    (match p_password u with
     | Some s => Some (if String.eqb s "" then "" else "*")
     | None => None
     end)
    (p_ssl u).

Definition mask_body {A} (f : A -> A) (b : Parsed A) : Parsed A :=
  match b with
  | Invalid d => Invalid d
  | Valid a => Valid (f a)
  end.

(** *** What each handler sends, as a function of faults and stored rows *)

Definition store_error (env : Env) (op : StoreOp) (k : Response) : Response :=
  match store_fault env op with
  | Some msg => handleError (Error msg)
  | None => k
  end.

Definition list_response (env : Env) (t : gmap Z DbConnection) : Response :=
  store_error env OpSelect
    (json 200 (VArr ((fun c => VObj (public_row c))
                       <$> order_by_name (snd <$> map_to_list t)))).

Definition get_response (env : Env) (row : option DbConnection) : Response :=
  store_error env OpSelect
    (match row with
     | Some c => json 200 (VObj (public_row c))
     | None => not_found
     end).

Definition create_response (env : Env) (serial : Z)
    (req_body : Parsed InsertDbConnection) : Response :=
  match req_body with
  | Invalid d => handleError (mkJsError (Some d) "Validation error")
  | Valid c =>
      match store_fault env OpInsert with
      | Some msg => connection_error (Error msg) "Failed to connect to database"
      | None => json 201 (VObj (public_row (insert_row serial c)))
      end
  end.

Definition updated_response (env : Env) (u : PartialDbConnection)
    (row : option DbConnection) : Response :=
  store_error env OpUpdate
    (match row with
     | Some c => json 200 (VObj (public_row (update_row u c)))
     | None => not_found
     end).

Definition update_response (env : Env) (row : option DbConnection)
    (req_body : Parsed PartialDbConnection) : Response :=
  match req_body with
  | Invalid d => handleError (mkJsError (Some d) "Validation error")
  | Valid u =>
      if connection_details_changing u then
        store_error env OpSelect
          (match row with
           | Some _ => updated_response env u row
           | None => not_found
           end)
      else updated_response env u row
  end.

(** ** Invariants of the store and of the registry *)

(** Every stored profile carries its key as [id], and the keys in use are
    below the next value of the serial. *)
Definition ids_fresh (w : World) : Prop :=
  forall k c, db_connections w !! k = Some c -> id c = k /\ k < db_serial w.

(** Registry entries point into the heap, and no two identifiers share a
    pool. *)
Definition registry_sound (w : World) : Prop :=
  (forall cid h, connectionPools w !! cid = Some h -> (h < length (heap w))%nat)
  /\ (forall c1 c2 h,
        connectionPools w !! c1 = Some h -> connectionPools w !! c2 = Some h ->
        c1 = c2).

(** A cached pool belongs to a stored profile, was built from the details
    now stored for it, and has not been ended. *)
Definition registry_current (w : World) : Prop :=
  forall cid h,
    connectionPools w !! cid = Some h ->
    exists c p,
      db_connections w !! cid = Some c
      /\ heap w !! h = Some p
      /\ options p = registry_options c
      /\ ended p = false.

(** The driver never fails to end a pool. *)
Definition ends_cleanly (env : Env) : Prop := forall cfg, end_fault env cfg = None.

(** The part of the world the code can observe: everything but the trace. *)
Definition state_of (w : World)
  : gmap Z DbConnection * Z * gmap Z nat * list Pool :=
  (db_connections w, db_serial w, connectionPools w, heap w).

(** A run that changes nothing the code can observe. *)
Definition quiet {A} (m : M A) : Prop :=
  forall w, state_of (snd (m w)) = state_of w.

(** The three invariants together. *)
Definition healthy (w : World) : Prop :=
  ids_fresh w /\ registry_sound w /\ registry_current w.

(** Sample calls: create a profile, query through it, change its host,
    query again, probe a candidate, delete the profile. *)
Definition sample_calls : list StorageCall :=
  [ CallCreateConnection sample_insert;
    CallExecuteQuery 1 "SELECT 1 AS x";
    CallUpdateConnection 1 new_host;
    CallListTables 1;
    CallTestConnection sample_insert;
    CallCreateConnection sample_insert;
    CallDeleteConnection 1 ].

(** An update that carries a new display name and nothing else. *)
Definition rename_to (n : string) : PartialDbConnection :=
  {| p_name := Some n; p_host := None; p_port := None; p_database := None;
     p_username := None; p_password := None; p_ssl := Undef |}.

(** A driver that connects but fails to end pools. *)
Definition stuck_end_env : Env :=
  {| connect_fault := fun _ => None;
     end_fault := fun _ => Some "Called end on pool more than once";
     run_query := fun _ _ _ => inl "relation does not exist";
     store_fault := fun _ => None |}.

(** All the driver traffic of a run goes through pool [h]. *)
Definition through_pool (h : nat) (e : Event) : Prop :=
  match e with
  | ENewPool h' _ | EQuery h' _ _ => h' = h
  | _ => False
  end.

(** ** Saved queries *)

(** A query is stored in the table. *)
Definition stored_query (t : QueryTable) (q : SavedQuery) : Prop :=
  exists k, saved_queries t !! k = Some q.

Definition sample_queries : QueryTable :=
  mkQueryTable
    {[ 1 := mkSavedQuery 1 "recent orders" "SELECT * FROM orders LIMIT 10" (Some 7) None;
       2 := mkSavedQuery 2 "all users" "SELECT * FROM users" (Some 8) None;
       3 := mkSavedQuery 3 "scratch" "SELECT 1" None None ]}
    4 "2024-01-01T00:00:00.000Z".

(** ** The request log and the port search *)

(** The log line before it is cut. *)
Definition full_log_line (method path : list N) (statusCode duration : Z)
    (captured : option (list N)) : list N :=
  method ++ units " " ++ path ++ units " " ++ units (pretty statusCode)
  ++ units " in " ++ units (pretty duration) ++ units "ms"
  ++ match captured with
     | Some text => units " :: " ++ text
     | None => []
     end.

(** A machine on which ports 5000 to 5002 are taken. *)
Definition busy_net (port : Z) (host : string) : ListenOutcome :=
  if (port <? 5003) then AddrInUse else Listening.

(** A machine whose network stack refuses every bind with ENOTSUP. *)
Definition unsupported_net (port : Z) (host : string) : ListenOutcome :=
  NotSupported.

(** A machine with every port taken. *)
Definition full_net (port : Z) (host : string) : ListenOutcome := AddrInUse.

(** ** Reading quoted text back *)

(** How a CSV reader reads a quoted field, and SQL a string literal, from
    just after the opening quote: up to the next quote character that is
    not doubled; a doubled one stands for the character itself. *)
Fixpoint read_quoted (q : ascii) (s : string) : option (string * string) :=
  match s with
  | EmptyString => None
  | String c r =>
      if Ascii.eqb c q then
        match r with
        | String c' r' =>
            if Ascii.eqb c' q then
              match read_quoted q r' with
              | Some (i, rest) => Some (String c i, rest)
              | None => None
              end
            else Some (EmptyString, r)
        | EmptyString => Some (EmptyString, EmptyString)
        end
      else
        match read_quoted q r with
        | Some (i, rest) => Some (String c i, rest)
        | None => None
        end
  end.

(** A field that opens with the quote character. *)
Definition read_field (q : ascii) (text : string) : option (string * string) :=
  match text with
  | String c r => if Ascii.eqb c q then read_quoted q r else None
  | EmptyString => None
  end.

(** The text that follows a field does not begin with the quote character. *)
Definition ends_field (q : ascii) (rest : string) : bool :=
  match rest with
  | String c _ => negb (Ascii.eqb c q)
  | EmptyString => true
  end.

(** ** The pager *)

Definition page_numbers (items : list PageItem) : list Z :=
  omap (fun i => match i with PageNumber n => Some n | Ellipsis => None end) items.

Definition initial_pager : Pager := mkPager 1 10.

Definition pager_run (total : Z) (actions : list PagerAction) (s : Pager) : Pager :=
  fold_left (fun s a => pager_step total a s) actions s.

(** Every action is one the pager allows in the state it is taken in. *)
Fixpoint all_offered (total : Z) (actions : list PagerAction) (s : Pager) : Prop :=
  match actions with
  | [] => True
  | a :: r => offered total s a /\ all_offered total r (pager_step total a s)
  end.

(** The page shown lies inside the table. *)
Definition inside_table (total : Z) (s : Pager) : Prop :=
  0 < pg_pageSize s
  /\ 1 <= pg_page s
  /\ (pg_page s = 1 \/ (pg_page s - 1) * pg_pageSize s < total).

(** * Properties *)

(** ** Heap and monad facts *)

Lemma lookup_fresh (hp : list Pool) (p : Pool) : (hp ++ [p]) !! length hp = Some p.
Proof. by apply list_lookup_middle. Qed.

Lemma insert_fresh (hp : list Pool) (p q : Pool) :
  <[length hp := q]> (hp ++ [p]) = hp ++ [q].
Proof.
  replace (length hp) with (length hp + 0)%nat by lia.
  by rewrite insert_app_r.
Qed.

Lemma new_Pool_run cfg w :
  new_Pool cfg w =
    (Ok (length (heap w)),
     mkWorld (db_connections w) (db_serial w) (connectionPools w)
       (heap w ++ [mkPool cfg false 0])
       (trace w ++ [ENewPool (length (heap w)) cfg])).
Proof. reflexivity. Qed.

(** ** Decimal rendering read back by [parse_int] *)











(** ** The prober *)

Ltac heap_simpl :=
  repeat first
    [ rewrite lookup_fresh
    | rewrite insert_fresh
    | progress unfold ret, throw, modify, get_world, set_heap, set_registry,
        set_db, set_serial, emit
    | progress cbn [heap trace options ended checkedOut
                    db_connections db_serial connectionPools Nat.pred] ].

(** Every run of [testConnection], by cases on what the driver does. *)
Lemma testConnection_run env c w :
  let h := length (heap w) in
  testConnection env c w =
    match connect_fault env (probe_options c), end_fault env (probe_options c) with
    | None, None => (Ok true, after_probe c w [EConnect h; ERelease h; EEnd h])
    | None, Some _ =>
        (Ok false, after_probe c w [EConnect h; ERelease h; EEnd h; EEnd h])
    | Some _, _ => (Ok false, after_probe c w [EConnect h; EEnd h])
    end.
Proof.
  intros h. subst h. unfold testConnection, bind, try_catch.
  rewrite new_Pool_run.
  change (pool_options _ _ _ _ _ _ _) with (probe_options c).
  unfold pool_connect. heap_simpl.
  destruct (connect_fault env (probe_options c)) as [msg |] eqn:Hc.
  - unfold pool_end. heap_simpl.
    unfold after_probe; destruct (end_fault env (probe_options c));
      heap_simpl; rewrite <- ?app_assoc; reflexivity.
  - unfold client_release. heap_simpl. unfold pool_end at 1. heap_simpl.
    destruct (end_fault env (probe_options c)) as [msg |] eqn:He.
    + unfold pool_end. heap_simpl. rewrite He.
      unfold after_probe, ret; heap_simpl; rewrite <- ?app_assoc; reflexivity.
    + unfold after_probe, ret; heap_simpl; rewrite <- ?app_assoc; reflexivity.
Qed.

(** C5: [testConnection] (probe) always returns a boolean, whatever the
    driver does.  It constructs one new pool, configured from the candidate
    profile with [connectionTimeoutMillis = 5000]; [end()] is called on that
    pool on every path, which leaves it ended with no session checked out;
    it answers [true] only when the session was acquired (and then released
    before the pool was ended); and the registry, the stored profiles and
    all earlier pools are as before. *)
Theorem probe_closes_pool_and_spares_registry env c w :
  let h := length (heap w) in
  let w' := snd (testConnection env c w) in
  exists b tr,
    fst (testConnection env c w) = Ok b
    /\ connectionTimeoutMillis (probe_options c) = Some 5000
    /\ heap w' = heap w ++ [mkPool (probe_options c) true 0]
    /\ trace w' = trace w ++ ENewPool h (probe_options c) :: tr
    /\ EEnd h ∈ tr
    /\ (b = true ->
        connect_fault env (probe_options c) = None
        /\ tr = [EConnect h; ERelease h; EEnd h])
    /\ connectionPools w' = connectionPools w
    /\ db_connections w' = db_connections w.
Proof.
  intros h w'. subst w'. rewrite testConnection_run. fold h.
  destruct (connect_fault env (probe_options c)) as [m |];
    [| destruct (end_fault env (probe_options c)) as [m |]];
    eexists _, _; cbn [fst snd after_probe heap trace connectionPools db_connections];
    repeat split; try done; set_solver.
Qed.

(** ** The registry *)

Lemma registry_options_eq c :
  pool_options (host c) (Some (port c)) (database c) (username c) (password c)
    (bool_decide (ssl c = Some true)) None = registry_options c.
Proof. unfold pool_options, registry_options. by destruct (ssl c) as [[] |]. Qed.

Lemma construct_pool_found env cid c w :
  store_fault env OpSelect = None ->
  db_connections w !! cid = Some c ->
  construct_pool env cid w = (Ok (length (heap w)), after_construct cid c w).
Proof.
  intros Hs Hc. unfold construct_pool, getConnection, store_call, bind.
  rewrite Hs. heap_simpl. rewrite Hc. rewrite new_Pool_run, registry_options_eq.
  reflexivity.
Qed.

Lemma construct_pool_missing env cid w :
  store_fault env OpSelect = None ->
  db_connections w !! cid = None ->
  construct_pool env cid w =
    (Throw (Error ("Connection with ID " +:+ pretty cid +:+ " not found")), w).
Proof.
  intros Hs Hc. unfold construct_pool, getConnection, store_call, bind.
  rewrite Hs. heap_simpl. by rewrite Hc.
Qed.

(** C3: [getConnectionPool] (resolve).  A cached pool is returned and the
    world is untouched.  On a miss for an identifier without a stored
    profile the call throws "Connection with ID <id> not found" and the world,
    so the registry too, is untouched.  On a miss for a stored profile a new
    pool is constructed from the profile's host, port, database, username,
    password and ssl flag only, stored in the registry under the identifier,
    and returned. *)
Theorem resolve_hit_miss env cid w :
  (forall pool, connectionPools w !! cid = Some pool ->
     getConnectionPool env cid w = (Ok pool, w))
  /\ (connectionPools w !! cid = None ->
      store_fault env OpSelect = None ->
      db_connections w !! cid = None ->
      getConnectionPool env cid w =
        (Throw (Error ("Connection with ID " +:+ pretty cid +:+ " not found")), w))
  /\ (forall c,
      connectionPools w !! cid = None ->
      store_fault env OpSelect = None ->
      db_connections w !! cid = Some c ->
      let pool := length (heap w) in
      let w' := snd (getConnectionPool env cid w) in
      fst (getConnectionPool env cid w) = Ok pool
      /\ heap w' = heap w ++ [mkPool (registry_options c) false 0]
      /\ connectionPools w' = <[cid := pool]> (connectionPools w)
      /\ connectionPools w' !! cid = Some pool
      /\ db_connections w' = db_connections w).
Proof.
  unfold getConnectionPool, cached_pool. split; [| split].
  - by intros pool ->.
  - intros -> Hs Hc. by apply construct_pool_missing.
  - intros c Hmiss Hs Hc. cbv zeta.
    rewrite Hmiss, (construct_pool_found env cid c w Hs Hc).
    cbn [fst snd after_construct heap connectionPools db_connections].
    by rewrite lookup_insert_eq.
Qed.

(** On the sample worlds: a hit on the cached pool 0, a miss on the unknown
    profile 9, and a miss on the stored profile 7 that constructs pool 0. *)
Lemma resolve_hit_miss_witness :
  getConnectionPool quiet_env 7 cached_world = (Ok 0%nat, cached_world)
  /\ getConnectionPool quiet_env 9 stored_world =
       (Throw (Error "Connection with ID 9 not found"), stored_world)
  /\ fst (getConnectionPool quiet_env 7 stored_world) = Ok 0%nat
  /\ connectionPools (snd (getConnectionPool quiet_env 7 stored_world)) !! 7
       = Some 0%nat.
Proof.
  split; [| split].
  - apply (proj1 (resolve_hit_miss quiet_env 7 cached_world)). reflexivity.
  - apply (proj1 (proj2 (resolve_hit_miss quiet_env 9 stored_world)));
      reflexivity.
  - pose proof (proj2 (proj2 (resolve_hit_miss quiet_env 7 stored_world))
                  sample_profile eq_refl eq_refl eq_refl) as H.
    cbv zeta in H. destruct H as (H1 & _ & _ & H4 & _). split; assumption.
Defined.

(** ** Concurrent first use *)

Lemma both_miss_run :
  run_schedule quiet_env both_miss [Called 7; Called 7] stored_world =
    ([Settled (Ok 0%nat); Settled (Ok 1%nat)],
     mkWorld {[7 := sample_profile]} 8 {[7 := 1%nat]}
       [mkPool (registry_options sample_profile) false 0;
        mkPool (registry_options sample_profile) false 0]
       [ENewPool 0 (registry_options sample_profile);
        ENewPool 1 (registry_options sample_profile)]).
Proof. vm_compute. reflexivity. Qed.

(** C2, counterexample: with two callers for profile 7 scheduled so that
    both miss the cache before either stores its pool, two pools are
    constructed and the callers hold different pools; pool 0 is neither
    ended nor reachable from the registry. *)
Lemma concurrent_resolve_builds_two_pools : ~ single_flight.
Proof.
  intros Hclaim.
  destruct (Hclaim quiet_env stored_world 7 sample_profile 2%nat both_miss
              _ _ eq_refl eq_refl eq_refl ltac:(lia) both_miss_run eq_refl)
    as [Hone _].
  vm_compute in Hone. discriminate.
Qed.

Lemma run_settled_hits env cid pool (m : nat) : forall (k : nat) w,
  connectionPools w !! cid = Some pool ->
  run_schedule env (flat_map (fun i => [i; i]) (seq k m))
    (replicate k (Settled (Ok pool)) ++ replicate m (Called cid)) w =
    (replicate (k + m) (Settled (Ok pool)), w).
Proof.
  induction m as [| m IH]; intros k w Hhit.
  - cbn. by rewrite app_nil_r, Nat.add_0_r.
  - cbn [seq flat_map app run_schedule].
    assert (forall t l, (replicate k (Settled (Ok pool)) ++ t :: l) !! k = Some t)
      as Hk by (intros; apply list_lookup_middle; by rewrite length_replicate).
    assert (forall t t' l,
              <[k := t']> (replicate k (Settled (Ok pool)) ++ t :: l)
              = replicate k (Settled (Ok pool)) ++ t' :: l) as Hi.
    { intros. rewrite <- (length_replicate k (Settled (Ok pool))) at 1.
      replace (length (replicate k (Settled (Ok pool))))
        with (length (replicate k (Settled (Ok pool))) + 0)%nat by lia.
      by rewrite insert_app_r. }
    cbn [replicate]. rewrite Hk. cbn [step_task]. unfold cached_pool at 1.
    rewrite Hhit, Hi, Hk. cbn [step_task]. rewrite Hi.
    replace (replicate k (Settled (Ok pool)) ++ Settled (Ok pool) :: replicate m (Called cid))
      with (replicate (S k) (Settled (Ok pool)) ++ replicate m (Called cid))
      by (rewrite replicate_S_end, <- app_assoc; reflexivity).
    rewrite IH by done. f_equal. f_equal. lia.
Qed.

(** C2, as amended: [n] calls for a stored, uncached profile that do not
    overlap (each settles before the next starts) construct exactly one
    pool, and all [n] calls return that pool, which is the one left in the
    registry. *)
Theorem sequential_resolve_single_pool env w cid c (n : nat) :
  connectionPools w !! cid = None ->
  db_connections w !! cid = Some c ->
  store_fault env OpSelect = None ->
  (0 < n)%nat ->
  let pool := length (heap w) in
  let ts := fst (run_schedule env (sequential n) (replicate n (Called cid)) w) in
  let w' := snd (run_schedule env (sequential n) (replicate n (Called cid)) w) in
  pools_constructed w w' = 1%nat
  /\ ts = replicate n (Settled (Ok pool))
  /\ connectionPools w' !! cid = Some pool.
Proof.
  intros Hmiss Hc Hs Hn. destruct n as [| m]; [lia |].
  unfold sequential. cbn [seq flat_map app replicate run_schedule lookup list_lookup].
  cbn [step_task]. unfold cached_pool. rewrite Hmiss.
  cbn [insert list_insert lookup list_lookup step_task].
  rewrite (construct_pool_found env cid c w Hs Hc).
  pose proof (run_settled_hits env cid (length (heap w)) m 1 (after_construct cid c w))
    as Hrest.
  cbn [replicate app] in Hrest. rewrite Hrest by apply lookup_insert_eq.
  cbn [fst snd]. repeat split.
  - unfold pools_constructed, after_construct; cbn [heap].
    rewrite length_app; cbn; lia.
  - apply lookup_insert_eq.
Qed.

(** *** Overlapping callers, in general *)

Lemma run_schedule_app env s1 : forall s2 ts w,
  run_schedule env (s1 ++ s2) ts w =
    run_schedule env s2 (fst (run_schedule env s1 ts w))
      (snd (run_schedule env s1 ts w)).
Proof.
  induction s1 as [| i s1 IH]; intros s2 ts w; [done |].
  cbn [app run_schedule]. destruct (ts !! i) as [t |]; [| apply IH].
  destruct (step_task env t w) as [t' w']. apply IH.
Qed.

Lemma lookup_after_prefix {A} (l1 l2 : list A) (x : A) (k : nat) :
  length l1 = k -> (l1 ++ x :: l2) !! k = Some x.
Proof. intros <-. by apply list_lookup_middle. Qed.

Lemma insert_after_prefix {A} (l1 l2 : list A) (x y : A) (k : nat) :
  length l1 = k -> <[k := y]> (l1 ++ x :: l2) = l1 ++ y :: l2.
Proof.
  intros <-. replace (length l1) with (length l1 + 0)%nat by lia.
  by rewrite insert_app_r.
Qed.

Lemma run_all_suspend env cid (m : nat) : forall (k : nat) w,
  connectionPools w !! cid = None ->
  run_schedule env (seq k m)
    (replicate k (Suspended cid) ++ replicate m (Called cid)) w =
    (replicate (k + m) (Suspended cid), w).
Proof.
  induction m as [| m IH]; intros k w Hmiss.
  - cbn. by rewrite app_nil_r, Nat.add_0_r.
  - cbn [seq run_schedule replicate].
    rewrite lookup_after_prefix by apply length_replicate.
    cbn [step_task]. unfold cached_pool. rewrite Hmiss.
    rewrite insert_after_prefix by apply length_replicate.
    replace (replicate k (Suspended cid) ++ Suspended cid :: replicate m (Called cid))
      with (replicate (S k) (Suspended cid) ++ replicate m (Called cid))
      by (rewrite replicate_S_end, <- app_assoc; reflexivity).
    rewrite IH by done. do 2 f_equal. lia.
Qed.

Lemma after_constructs_heap cid c (k : nat) w :
  length (heap (after_constructs cid c k w)) = (length (heap w) + k)%nat.
Proof.
  induction k as [| k IH]; [cbn; lia |].
  change (after_constructs cid c (S k) w)
    with (after_construct cid c (after_constructs cid c k w)).
  unfold after_construct at 1. cbn [heap].
  rewrite length_app, IH. cbn [length]. lia.
Qed.

Lemma after_constructs_db cid c (k : nat) w :
  db_connections (after_constructs cid c k w) = db_connections w.
Proof. induction k as [| k IH]; [done | exact IH]. Qed.

Lemma run_all_construct env cid c w (m : nat) : forall (k : nat),
  store_fault env OpSelect = None ->
  db_connections w !! cid = Some c ->
  run_schedule env (seq k m)
    (((fun i : nat => Settled (Ok (length (heap w) + i)%nat)) <$> seq 0 k)
       ++ replicate m (Suspended cid))
    (after_constructs cid c k w) =
    ((fun i : nat => Settled (Ok (length (heap w) + i)%nat)) <$> seq 0 (k + m),
     after_constructs cid c (k + m) w).
Proof.
  induction m as [| m IH]; intros k Hs Hc.
  - cbn. by rewrite app_nil_r, Nat.add_0_r.
  - cbn [seq run_schedule replicate].
    set (done_k := (fun i : nat => Settled (Ok (length (heap w) + i)%nat)) <$> seq 0 k).
    assert (length done_k = k) as Hlen
      by (unfold done_k; by rewrite length_fmap, length_seq).
    rewrite lookup_after_prefix by done. cbn [step_task].
    rewrite (construct_pool_found env cid c) by (by rewrite ?after_constructs_db).
    rewrite after_constructs_heap.
    rewrite insert_after_prefix by done.
    change (after_construct cid c (after_constructs cid c k w))
      with (after_constructs cid c (S k) w).
    replace (done_k ++ Settled (Ok (length (heap w) + k)%nat)
               :: replicate m (Suspended cid))
      with (((fun i : nat => Settled (Ok (length (heap w) + i)%nat)) <$> seq 0 (S k))
              ++ replicate m (Suspended cid)).
    + rewrite IH by done. by replace (S k + m)%nat with (k + S m)%nat by lia.
    + rewrite seq_S, fmap_app, <- app_assoc. reflexivity.
Qed.

(** [n] callers for a stored, uncached profile that overlap at the profile
    lookup construct [n] pools; caller [i] receives pool [i] of them. *)
Lemma overlapping_resolve_builds_n_pools env w cid c (n : nat) :
  connectionPools w !! cid = None ->
  db_connections w !! cid = Some c ->
  store_fault env OpSelect = None ->
  run_schedule env (all_miss n) (replicate n (Called cid)) w =
    ((fun i : nat => Settled (Ok (length (heap w) + i)%nat)) <$> seq 0 n,
     after_constructs cid c n w)
  /\ pools_constructed w (after_constructs cid c n w) = n.
Proof.
  intros Hmiss Hc Hs. split.
  - unfold all_miss. rewrite run_schedule_app.
    pose proof (run_all_suspend env cid n 0 w Hmiss) as H1.
    cbn [replicate app Nat.add] in H1. rewrite H1. cbn [fst snd].
    exact (run_all_construct env cid c w n 0 Hs Hc).
  - unfold pools_constructed. rewrite after_constructs_heap. lia.
Qed.

(** Three calls in a row for the stored profile 7. *)
Lemma sequential_resolve_single_pool_witness :
  pools_constructed stored_world
    (snd (run_schedule quiet_env (sequential 3)
            (replicate 3 (Called 7)) stored_world)) = 1%nat
  /\ fst (run_schedule quiet_env (sequential 3)
            (replicate 3 (Called 7)) stored_world)
     = replicate 3 (Settled (Ok 0%nat))
  /\ connectionPools
       (snd (run_schedule quiet_env (sequential 3)
               (replicate 3 (Called 7)) stored_world)) !! 7 = Some 0%nat.
Proof.
  apply (sequential_resolve_single_pool quiet_env stored_world 7 sample_profile 3);
    [reflexivity | reflexivity | reflexivity | lia].
Defined.

(** ** Eviction on update and on delete *)

(** [updateConnection] never touches the heap: no pool is ended by it. *)
Lemma updateConnection_keeps_heap env cid u w :
  heap (snd (updateConnection env cid u w)) = heap w
  /\ trace (snd (updateConnection env cid u w)) = trace w.
Proof.
  unfold updateConnection, store_call, bind.
  destruct (store_fault env OpUpdate); heap_simpl; [done |].
  destruct (bool_decide _); heap_simpl; done.
Qed.

Lemma updateConnection_evicts env cid u w :
  store_fault env OpUpdate = None ->
  connectionPools (snd (updateConnection env cid u w)) = delete cid (connectionPools w).
Proof.
  intros Hs. unfold updateConnection, store_call, bind. rewrite Hs. heap_simpl.
  case_bool_decide as Hc; heap_simpl; [done |].
  symmetry. apply delete_id.
  destruct (connectionPools w !! cid) eqn:E; [| done].
  exfalso. apply Hc. by eexists.
Qed.

(** [deleteConnection] ends the cached pool before dropping the entry. *)
Lemma deleteConnection_ends_pool env cid w pool p :
  store_fault env OpDelete = None ->
  connectionPools w !! cid = Some pool ->
  heap w !! pool = Some p ->
  end_fault env (options p) = None ->
  let w' := snd (deleteConnection env cid w) in
  heap w' = <[pool := mkPool (options p) true (checkedOut p)]> (heap w)
  /\ connectionPools w' = delete cid (connectionPools w)
  /\ trace w' = trace w ++ [EEnd pool].
Proof.
  intros Hs Hc Hp He. unfold deleteConnection, store_call, bind. rewrite Hs.
  heap_simpl. rewrite Hc. unfold pool_end. heap_simpl. rewrite Hp, He.
  heap_simpl. done.
Qed.

(** C4, the update path at a failing input: profile 7 has pool 0 cached and
    its host is changed.  [updateConnection] drops the registry entry but
    never calls [end()]: pool 0 stays on the heap, not ended, and the next
    resolve constructs pool 1 beside it.  [deleteConnection] on the same
    world does end pool 0. *)
Theorem update_evicts_without_closing :
  let w' := snd (updateConnection quiet_env 7 new_host cached_world) in
  connectionPools w' !! 7 = None
  /\ heap w' = [mkPool (registry_options sample_profile) false 0]
  /\ trace w' = trace cached_world
  /\ fst (getConnectionPool quiet_env 7 w') = Ok 1%nat
  /\ ended <$> heap (snd (getConnectionPool quiet_env 7 w')) = [false; false]
  /\ ended <$> heap (snd (deleteConnection quiet_env 7 cached_world)) = [true]
  /\ connectionPools (snd (deleteConnection quiet_env 7 cached_world)) !! 7 = None.
Proof. vm_compute. repeat split. Qed.

(** ** Creating a profile *)

(** [testConnection] never throws; it reports failure through its result. *)
Lemma testConnection_total env c w :
  exists b tr, testConnection env c w = (Ok b, after_probe c w tr).
Proof.
  rewrite testConnection_run.
  destruct (connect_fault _ _); [| destruct (end_fault _ _)]; by eexists _, _.
Qed.

(** C1 at a failing input: the target refuses the connection, so the probe
    answers [false]; the handler does not look at the answer, inserts the
    profile and replies 201. *)
Theorem create_persists_unreachable_profile :
  let r := create_connection refusing_env (Valid sample_insert) empty_store in
  fst (testConnection refusing_env sample_insert empty_store) = Ok false
  /\ fst r = Ok (mkResponse 201 (Some (VObj
       [ ("id", VNum 1); ("name", VStr "orders"); ("host", VStr "db.internal");
         ("port", VNum 5432); ("database", VStr "shop");
         ("username", VStr "admin"); ("ssl", VBool true);
         ("isActive", VBool false); ("lastConnected", VNull) ])))
  /\ db_connections (snd r) !! 1 = Some (insert_row 1 sample_insert).
Proof. vm_compute. repeat split. Qed.

(** ** The query executor *)





(** ** The paginated reader *)


(** *** A simulated target holding one table *)


(** ** The schema introspector *)



(** *** A simulated catalog *)



(** ** Table names in SQL text *)


Lemma app_string_assoc (a b c : string) : (a +:+ b) +:+ c = a +:+ (b +:+ c).
Proof.
  induction a as [| x a IH]; [done |].
  change (String x ((a +:+ b) +:+ c) = String x (a +:+ b +:+ c)).
  by rewrite IH.
Qed.

Section Traffic.
Context (P : Event -> Prop).

Lemma emits_ret {A} (a : A) : emits P (ret a).
Proof. intros w. exists []. by rewrite app_nil_r. Qed.

Lemma emits_throw {A} e : emits P (@throw A e).
Proof. intros w. exists []. by rewrite app_nil_r. Qed.

Lemma emits_bind {A B} (m : M A) (k : A -> M B) :
  emits P m -> (forall a, emits P (k a)) -> emits P (bind m k).
Proof.
  intros Hm Hk w. unfold bind. destruct (Hm w) as (evs1 & Ht1 & HP1).
  destruct (m w) as [[a | e] w1]; cbn [snd] in *.
  - destruct (Hk a w1) as (evs2 & Ht2 & HP2).
    exists (evs1 ++ evs2). rewrite Ht2, Ht1, app_assoc. split; [done |].
    by apply Forall_app.
  - by exists evs1.
Qed.

Lemma emits_pool_query env h sql params :
  P (EQuery h sql params) -> emits P (pool_query env h sql params).
Proof.
  intros HP w. unfold pool_query.
  destruct (heap w !! h) as [p |]; [| exists []; by rewrite app_nil_r].
  exists [EQuery h sql params].
  destruct (run_query env (options p) sql params); cbn; by repeat constructor.
Qed.


Lemma emits_first_count r : emits P (first_count r).
Proof.
  unfold first_count. destruct (rows r); [apply emits_throw | apply emits_ret].
Qed.
End Traffic.



(** ** Passwords in responses *)

Lemma omit_password c : obj_omit "password" (row_object c) = public_row c.
Proof. reflexivity. Qed.

(** [{...conn, password: undefined}] serializes to the row without it. *)
Lemma undefined_password_json c :
  to_json (VObj (obj_set "password" VUndefined (row_object c)))
  = to_json (VObj (public_row c)).
Proof. destruct c as [? ? ? ? ? ? ? [[] |] [[] |] []]; vm_compute; reflexivity. Qed.

Lemma public_row_json c : exists o,
  to_json (VObj (public_row c)) = VObj o /\ obj_has "password" o = false.
Proof.
  destruct c as [? ? ? ? ? ? ? [[] |] [[] |] []];
    eexists; (split; [vm_compute; reflexivity | vm_compute; reflexivity]).
Qed.

Lemma handleError_password_free e : response_password_free (handleError e).
Proof.
  unfold handleError. destruct (zod e) as [d |]; [| done].
  unfold response_password_free, json; cbn. by destruct (to_json d).
Qed.

Lemma not_found_password_free : response_password_free not_found.
Proof. done. Qed.

Lemma connection_error_password_free e d :
  response_password_free (connection_error e d).
Proof. done. Qed.

Lemma public_password_free code c :
  response_password_free (json code (VObj (public_row c))).
Proof.
  unfold response_password_free, json; cbn [body].
  destruct (public_row_json c) as (o & -> & Ho). exact Ho.
Qed.

Lemma public_row_mask c : public_row (mask_password c) = public_row c.
Proof. reflexivity. Qed.

Lemma public_row_insert serial c :
  public_row (insert_row serial (mask_insert c)) = public_row (insert_row serial c).
Proof. reflexivity. Qed.

Lemma public_row_update u c :
  public_row (update_row (mask_partial u) (mask_password c))
  = public_row (update_row u c).
Proof. reflexivity. Qed.

Lemma changing_mask u :
  connection_details_changing (mask_partial u) = connection_details_changing u.
Proof.
  unfold connection_details_changing, mask_partial; cbn.
  destruct (p_password u) as [s |]; [| done].
  cbn. by destruct (String.eqb s "") eqn:E.
Qed.

Lemma insert_by_name_mask c l :
  insert_by_name (mask_password c) (mask_password <$> l)
  = mask_password <$> insert_by_name c l.
Proof.
  induction l as [| d l IH]; [done |].
  cbn. destruct (String.leb (name c) (name d)); [done |].
  cbn. by rewrite IH.
Qed.

Lemma order_by_name_mask l :
  order_by_name (mask_password <$> l) = mask_password <$> order_by_name l.
Proof.
  induction l as [| c l IH]; [done |].
  cbn. unfold order_by_name in IH. by rewrite IH, insert_by_name_mask.
Qed.

Lemma selected_rows_mask (t : gmap Z DbConnection) :
  order_by_name (snd <$> map_to_list (mask_password <$> t))
  = mask_password <$> order_by_name (snd <$> map_to_list t).
Proof.
  rewrite map_to_list_fmap, <- order_by_name_mask. f_equal.
  rewrite <- !list_fmap_compose. by apply list_fmap_ext; intros ? [].
Qed.

(** *** What each handler sends, as a function of faults and stored rows *)

Lemma list_connections_sends env w :
  list_connections env w = (Ok (list_response env (db_connections w)), w).
Proof.
  unfold list_connections, list_response, store_error, getConnections,
    store_call, try_catch, bind.
  destruct (store_fault env OpSelect); heap_simpl; [done |].
  do 2 f_equal. unfold json. do 2 f_equal. cbn [to_json]. f_equal.
  rewrite <- !list_fmap_compose. apply list_fmap_ext. intros _ c _.
  cbn [compose]. by rewrite undefined_password_json.
Qed.

Lemma get_connection_sends env cid w :
  get_connection env cid w = (Ok (get_response env (db_connections w !! cid)), w).
Proof.
  unfold get_connection, get_response, store_error, getConnection,
    store_call, try_catch, bind.
  destruct (store_fault env OpSelect); heap_simpl; [done |].
  by destruct (db_connections w !! cid).
Qed.

Lemma createConnection_value env c w :
  fst (createConnection env c w) =
    match store_fault env OpInsert with
    | Some msg => Throw (Error msg)
    | None => Ok (insert_row (db_serial w) c)
    end.
Proof.
  unfold createConnection, store_call, bind.
  by destruct (store_fault env OpInsert).
Qed.

Lemma updateConnection_value env cid u w :
  fst (updateConnection env cid u w) =
    match store_fault env OpUpdate with
    | Some msg => Throw (Error msg)
    | None => Ok (update_row u <$> db_connections w !! cid)
    end.
Proof.
  unfold updateConnection, store_call, bind.
  destruct (store_fault env OpUpdate); heap_simpl; [done |].
  by destruct (bool_decide _).
Qed.

Lemma create_connection_sends env req_body w :
  fst (create_connection env req_body w)
  = Ok (create_response env (db_serial w) req_body).
Proof.
  unfold create_connection, create_response, try_catch, bind.
  destruct req_body as [d | c]; [done |]. cbn [zod_parse]. heap_simpl.
  destruct (testConnection_total env c w) as (b & tr & ->).
  pose proof (createConnection_value env c (after_probe c w tr)) as Hv.
  destruct (createConnection env c (after_probe c w tr)) as [[r | e] w2];
    cbn [fst] in Hv; destruct (store_fault env OpInsert); simplify_eq; done.
Qed.

Lemma updated_sends env cid u w :
  fst (bind (updateConnection env cid u)
         (fun updatedConnection =>
            match updatedConnection with
            | None => ret not_found
            | Some updatedConnection =>
                ret (json 200 (VObj (obj_omit "password" (row_object updatedConnection))))
            end) w)
  = match store_fault env OpUpdate with
    | Some msg => Throw (Error msg)
    | None => Ok (match db_connections w !! cid with
                  | Some c => json 200 (VObj (public_row (update_row u c)))
                  | None => not_found
                  end)
    end.
Proof.
  unfold bind. pose proof (updateConnection_value env cid u w) as Hv.
  destruct (updateConnection env cid u w) as [[r | e] w2]; cbn [fst] in Hv;
    destruct (store_fault env OpUpdate); simplify_eq; [| done].
  by destruct (db_connections w !! cid).
Qed.

Lemma update_connection_sends env cid req_body w :
  fst (update_connection env cid req_body w)
  = Ok (update_response env (db_connections w !! cid) req_body).
Proof.
  unfold update_connection, update_response, updated_response, store_error.
  destruct req_body as [d | u]; [done |].
  unfold try_catch at 1. unfold bind at 1. cbn [zod_parse]. heap_simpl.
  unfold bind at 1.
  destruct (connection_details_changing u).
  - unfold getConnection, store_call. unfold bind at 1. unfold bind at 1.
    destruct (store_fault env OpSelect); heap_simpl; [done |].
    unfold bind at 1. heap_simpl.
    destruct (db_connections w !! cid) as [cur |] eqn:Hcur; heap_simpl; [| done].
    unfold try_catch at 1. unfold bind at 1.
    destruct (testConnection_total env (merged_for_test u cur) w) as (b & tr & ->).
    heap_simpl.
    pose proof (updated_sends env cid u (after_probe (merged_for_test u cur) w tr)) as Hv.
    cbn [after_probe db_connections] in Hv. rewrite Hcur in Hv.
    unfold ret in Hv.
    match goal with
    | |- (let (r, w') := ?m in _).1 = _ => destruct m as [[r | e] w2]
    end; cbn [fst] in *; destruct (store_fault env OpUpdate); by simplify_eq.
  - heap_simpl.
    pose proof (updated_sends env cid u w) as Hv. unfold ret in Hv.
    match goal with
    | |- (let (r, w') := ?m in _).1 = _ => destruct m as [[r | e] w2]
    end; cbn [fst] in *; destruct (store_fault env OpUpdate);
      simplify_eq; [| done].
    by destruct (db_connections w !! cid).
Qed.

Lemma store_error_password_free env op k :
  response_password_free k -> response_password_free (store_error env op k).
Proof.
  unfold store_error. destruct (store_fault env op); [| done].
  intros _. apply handleError_password_free.
Qed.

Lemma list_response_password_free env t : response_password_free (list_response env t).
Proof.
  apply store_error_password_free.
  unfold response_password_free, json; cbn [body to_json password_free].
  apply Forall_fmap, Forall_fmap, Forall_true. intros c. cbn [compose].
  by destruct (public_row_json c) as (o & -> & Ho).
Qed.

Lemma get_response_password_free env row : response_password_free (get_response env row).
Proof.
  apply store_error_password_free.
  destruct row; [apply public_password_free | done].
Qed.

Lemma create_response_password_free env serial b :
  response_password_free (create_response env serial b).
Proof.
  unfold create_response. destruct b; [apply handleError_password_free |].
  destruct (store_fault env OpInsert); [done | apply public_password_free].
Qed.

Lemma update_response_password_free env row b :
  response_password_free (update_response env row b).
Proof.
  assert (forall u, response_password_free (updated_response env u row)) as Hu.
  { intros u. apply store_error_password_free.
    destruct row; [apply public_password_free | done]. }
  unfold update_response. destruct b as [d | u]; [apply handleError_password_free |].
  destruct (connection_details_changing u); [| done].
  apply store_error_password_free. by destruct row.
Qed.

(** C10: the four handlers that return connection profiles (list, get,
    create, update) always answer, and no object they send, alone or as an
    item of the list, has a [password] property.  What they send is moreover
    the same when every stored password, and the password submitted with a
    create or update request, is replaced by another one: the response
    carries no information about passwords. *)
Theorem responses_never_carry_password env w cid
    (created : Parsed InsertDbConnection) (updated : Parsed PartialDbConnection) :
  (responds_password_free (list_connections env w)
   /\ fst (list_connections env (mask_store w)) = fst (list_connections env w))
  /\ (responds_password_free (get_connection env cid w)
      /\ fst (get_connection env cid (mask_store w)) = fst (get_connection env cid w))
  /\ (responds_password_free (create_connection env created w)
      /\ fst (create_connection env (mask_body mask_insert created) (mask_store w))
         = fst (create_connection env created w))
  /\ (responds_password_free (update_connection env cid updated w)
      /\ fst (update_connection env cid (mask_body mask_partial updated) (mask_store w))
         = fst (update_connection env cid updated w)).
Proof.
  unfold responds_password_free.
  rewrite !list_connections_sends, !get_connection_sends,
    !create_connection_sends, !update_connection_sends.
  cbn [fst mask_store set_db db_connections db_serial].
  repeat split.
  - apply list_response_password_free.
  - f_equal. unfold list_response. f_equal.
    rewrite selected_rows_mask, <- list_fmap_compose. done.
  - apply get_response_password_free.
  - f_equal. rewrite lookup_fmap. unfold get_response. f_equal.
    by destruct (db_connections w !! cid).
  - apply create_response_password_free.
  - f_equal. by destruct created.
  - apply update_response_password_free.
  - f_equal. rewrite lookup_fmap. destruct updated as [d | u]; [done |].
    unfold update_response, updated_response, mask_body.
    rewrite changing_mask.
    destruct (db_connections w !! cid) as [c |]; cbn [fmap option_fmap option_map];
      [by rewrite public_row_update | done].
Qed.

(** * The rest of the server: properties *)

(** ** What each storage call does to the world *)

Lemma createConnection_world env c w :
  snd (createConnection env c w) =
    match store_fault env OpInsert with
    | Some _ => w
    | None =>
        mkWorld (<[db_serial w := insert_row (db_serial w) c]> (db_connections w))
          (db_serial w + 1) (connectionPools w) (heap w) (trace w)
    end.
Proof.
  unfold createConnection, store_call, bind.
  destruct (store_fault env OpInsert); [done |]. by destruct w.
Qed.

Lemma updateConnection_world env cid u w :
  snd (updateConnection env cid u w) =
    match store_fault env OpUpdate with
    | Some _ => w
    | None =>
        mkWorld
          (match db_connections w !! cid with
           | Some r => <[cid := update_row u r]> (db_connections w)
           | None => db_connections w
           end)
          (db_serial w) (delete cid (connectionPools w)) (heap w) (trace w)
    end.
Proof.
  unfold updateConnection, store_call, bind.
  destruct (store_fault env OpUpdate); [done |]. destruct w as [db s reg hp tr].
  heap_simpl. case_bool_decide as Hc; heap_simpl.
  - by destruct (db !! cid).
  - rewrite delete_id; [by destruct (db !! cid) |].
    destruct (reg !! cid) eqn:E; [| done]. exfalso. apply Hc. by eexists.
Qed.

Lemma deleteConnection_world env cid w :
  snd (deleteConnection env cid w) =
    match store_fault env OpDelete with
    | Some _ => w
    | None =>
        match connectionPools w !! cid with
        | None =>
            mkWorld (delete cid (db_connections w)) (db_serial w)
              (connectionPools w) (heap w) (trace w)
        | Some pool =>
            match heap w !! pool with
            | None =>
                mkWorld (delete cid (db_connections w)) (db_serial w)
                  (connectionPools w) (heap w) (trace w)
            | Some p =>
                mkWorld (delete cid (db_connections w)) (db_serial w)
                  (match end_fault env (options p) with
                   | Some _ => connectionPools w
                   | None => delete cid (connectionPools w)
                   end)
                  (<[pool := mkPool (options p) true (checkedOut p)]> (heap w))
                  (trace w ++ [EEnd pool])
            end
        end
    end.
Proof.
  unfold deleteConnection, store_call, bind.
  destruct (store_fault env OpDelete); [done |]. destruct w as [db s reg hp tr].
  heap_simpl. destruct (reg !! cid) as [pool |]; heap_simpl; [| done].
  unfold pool_end, dangling. heap_simpl.
  destruct (hp !! pool) as [p |]; heap_simpl; [| done].
  by destruct (end_fault env (options p)).
Qed.

Lemma testConnection_world env c w :
  exists tr, snd (testConnection env c w) = after_probe c w tr.
Proof. destruct (testConnection_total env c w) as (b & tr & ->). by exists tr. Qed.

(** ** Calls that only talk to a target *)

Lemma state_of_eta w w' :
  state_of w' = state_of w ->
  db_connections w' = db_connections w /\ db_serial w' = db_serial w
  /\ connectionPools w' = connectionPools w /\ heap w' = heap w.
Proof. unfold state_of. intros [= -> -> -> ->]. done. Qed.

Lemma quiet_ret {A} (a : A) : quiet (ret a).
Proof. done. Qed.

Lemma quiet_throw {A} e : quiet (@throw A e).
Proof. done. Qed.

Lemma quiet_bind {A B} (m : M A) (k : A -> M B) :
  quiet m -> (forall a, quiet (k a)) -> quiet (bind m k).
Proof.
  intros Hm Hk w. unfold bind. specialize (Hm w).
  destruct (m w) as [[a | e] w1]; cbn [snd] in *; [| done].
  by rewrite Hk.
Qed.

Lemma quiet_try_catch {A} (m : M A) (h : JsError -> M A) :
  quiet m -> (forall e, quiet (h e)) -> quiet (try_catch m h).
Proof.
  intros Hm Hh w. unfold try_catch. specialize (Hm w).
  destruct (m w) as [[a | e] w1]; cbn [snd] in *; [done |].
  by rewrite Hh.
Qed.

Lemma quiet_pool_query env h sql params : quiet (pool_query env h sql params).
Proof.
  intros w. unfold pool_query, dangling.
  destruct (heap w !! h) as [p |]; [| done].
  by destruct (run_query env (options p) sql params).
Qed.

Lemma quiet_first_count r : quiet (first_count r).
Proof. unfold first_count. by destruct (rows r). Qed.

Lemma quiet_getConnections env : quiet (getConnections env).
Proof.
  intros w. unfold getConnections, store_call, bind.
  by destruct (store_fault env OpSelect).
Qed.

Lemma quiet_getConnection env cid : quiet (getConnection env cid).
Proof.
  intros w. unfold getConnection, store_call, bind.
  by destruct (store_fault env OpSelect).
Qed.

(** Resolving a pool leaves the world alone or adds one pool for a stored,
    uncached profile. *)
Lemma getConnectionPool_world env cid w :
  snd (getConnectionPool env cid w) = w
  \/ exists c,
       connectionPools w !! cid = None
       /\ db_connections w !! cid = Some c
       /\ fst (getConnectionPool env cid w) = Ok (length (heap w))
       /\ snd (getConnectionPool env cid w) = after_construct cid c w.
Proof.
  unfold getConnectionPool, cached_pool.
  destruct (connectionPools w !! cid) as [h |] eqn:Hreg; [by left |].
  destruct (store_fault env OpSelect) as [msg |] eqn:Hs.
  { left. unfold construct_pool, getConnection, store_call, bind. by rewrite Hs. }
  destruct (db_connections w !! cid) as [c |] eqn:Hdb.
  - right. exists c. by rewrite (construct_pool_found env cid c w Hs Hdb).
  - left. by rewrite (construct_pool_missing env cid w Hs Hdb).
Qed.

Lemma resolve_then_quiet {A} env cid (k : nat -> M A) w :
  (forall pool, quiet (k pool)) ->
  state_of (snd (bind (getConnectionPool env cid) k w))
  = state_of (snd (getConnectionPool env cid w)).
Proof.
  intros Hk. unfold bind.
  destruct (getConnectionPool env cid w) as [[pool | e] w1]; [| done].
  apply Hk.
Qed.

Ltac quiet_steps :=
  repeat first
    [ apply quiet_ret | apply quiet_throw | apply quiet_pool_query
    | apply quiet_first_count
    | apply quiet_bind; [| intros ?]
    | apply quiet_try_catch; [| intros ?] ].

(** A call that queries a target leaves the state as resolving its pool
    leaves it. *)
Lemma query_call_state env call w cid :
  match call with
  | CallListDatabases c | CallListTables c | CallGetTableSchema c _
  | CallExecuteQuery c _ | CallGetTableData c _ _ _ => c = cid
  | _ => False
  end ->
  state_of (after_call env call w) = state_of (snd (getConnectionPool env cid w)).
Proof.
  destruct call; intros Hc; try done; subst; cbn [after_call];
    unfold listDatabases, listTables, getTableSchema, executeQuery, getTableData;
    apply resolve_then_quiet; intros pool; quiet_steps.
Qed.

(** ** The invariants, call by call *)

Lemma ids_fresh_state w w' : state_of w' = state_of w -> ids_fresh w -> ids_fresh w'.
Proof.
  intros (Hdb & Hs & _ & _)%state_of_eta H k c. rewrite Hdb, Hs. apply H.
Qed.

Lemma registry_sound_state w w' :
  state_of w' = state_of w -> registry_sound w -> registry_sound w'.
Proof.
  intros (_ & _ & Hreg & Hhp)%state_of_eta [Hv Hi]. unfold registry_sound.
  rewrite Hreg, Hhp. by split.
Qed.

Lemma registry_current_state w w' :
  state_of w' = state_of w -> registry_current w -> registry_current w'.
Proof.
  intros (Hdb & _ & Hreg & Hhp)%state_of_eta H cid h.
  rewrite Hdb, Hreg, Hhp. apply H.
Qed.

Lemma registry_sound_construct cid c w :
  connectionPools w !! cid = None ->
  registry_sound w -> registry_sound (after_construct cid c w).
Proof.
  intros Hmiss [Hv Hi]. split; cbn [after_construct connectionPools heap].
  - intros k h. rewrite length_app. cbn [length].
    destruct (decide (cid = k)) as [-> | Hne].
    + rewrite lookup_insert_eq. intros [= <-]. lia.
    + rewrite lookup_insert_ne by done. intros Hk%Hv. lia.
  - intros c1 c2 h.
    destruct (decide (cid = c1)) as [E1 | H1], (decide (cid = c2)) as [E2 | H2];
      [congruence | subst c1 | subst c2 |];
      rewrite ?lookup_insert_eq, ?lookup_insert_ne by done.
    + intros [= <-] Hk%Hv. lia.
    + intros Hk%Hv [= <-]. lia.
    + apply Hi.
Qed.

Lemma registry_current_construct cid c w :
  db_connections w !! cid = Some c ->
  registry_current w -> registry_current (after_construct cid c w).
Proof.
  intros Hc H k h. cbn [after_construct connectionPools heap db_connections].
  destruct (decide (cid = k)) as [-> | Hne].
  - rewrite lookup_insert_eq. intros [= <-]. eexists c, _.
    by rewrite lookup_fresh.
  - rewrite lookup_insert_ne by done. intros (c' & p & ? & Hp & ? & ?)%H.
    exists c', p. rewrite lookup_app_l by (by eapply lookup_lt_Some). done.
Qed.

Lemma registry_sound_probe c w tr :
  registry_sound w -> registry_sound (after_probe c w tr).
Proof.
  intros [Hv Hi]. split; cbn [after_probe connectionPools heap]; [| done].
  intros k h Hk%Hv. rewrite length_app. cbn [length]. lia.
Qed.

Lemma registry_current_probe c w tr :
  registry_current w -> registry_current (after_probe c w tr).
Proof.
  intros H k h (c' & p & ? & Hp & ? & ?)%H. exists c', p.
  cbn [after_probe heap db_connections].
  rewrite lookup_app_l by (by eapply lookup_lt_Some). done.
Qed.

Ltac by_query_call env w cid H state_lemma :=
  eapply state_lemma; [eapply (query_call_state env _ w cid); done |];
  destruct (getConnectionPool_world env cid w) as [-> | (c & ? & ? & _ & ->)];
  [exact H |].

Lemma after_call_ids_fresh env call w : ids_fresh w -> ids_fresh (after_call env call w).
Proof.
  intros H.
  destruct call as [| cid | c | cid u | cid | c | cid | cid | cid t | cid q | cid t p s].
  - eapply ids_fresh_state; [apply quiet_getConnections | exact H].
  - eapply ids_fresh_state; [apply quiet_getConnection | exact H].
  - cbn [after_call]. rewrite createConnection_world. destruct (store_fault env OpInsert); [done |].
    intros k r. cbn [db_connections db_serial].
    destruct (decide (db_serial w = k)) as [<- | Hne].
    + rewrite lookup_insert_eq. intros [= <-]. cbn. lia.
    + rewrite lookup_insert_ne by done. intros [? ?]%H. lia.
  - cbn [after_call].
    rewrite updateConnection_world. destruct (store_fault env OpUpdate); [done |].
    intros k r'. cbn [db_connections db_serial].
    destruct (db_connections w !! cid) as [r |] eqn:Hr; [| apply H].
    destruct (decide (cid = k)) as [<- | Hne].
    + rewrite lookup_insert_eq. intros [= <-]. apply (H cid r Hr).
    + rewrite lookup_insert_ne by done. apply H.
  - cbn [after_call].
    rewrite deleteConnection_world. destruct (store_fault env OpDelete); [done |].
    assert (forall reg hp tr,
              ids_fresh (mkWorld (delete cid (db_connections w)) (db_serial w) reg hp tr))
      as Hdel.
    { intros reg hp tr k r. cbn [db_connections db_serial].
      intros [_ Hk]%lookup_delete_Some. by apply H. }
    destruct (connectionPools w !! cid); [destruct (heap w !! _) |]; apply Hdel.
  - cbn [after_call].
    destruct (testConnection_world env c w) as (tr & ->). exact H.
  - by_query_call env w cid H ids_fresh_state. exact H.
  - by_query_call env w cid H ids_fresh_state. exact H.
  - by_query_call env w cid H ids_fresh_state. exact H.
  - by_query_call env w cid H ids_fresh_state. exact H.
  - by_query_call env w cid H ids_fresh_state. exact H.
Qed.

Lemma after_call_registry_sound env call w :
  registry_sound w -> registry_sound (after_call env call w).
Proof.
  intros H.
  destruct call as [| cid | c | cid u | cid | c | cid | cid | cid t | cid q | cid t p s].
  - eapply registry_sound_state; [apply quiet_getConnections | exact H].
  - eapply registry_sound_state; [apply quiet_getConnection | exact H].
  - cbn [after_call]. rewrite createConnection_world.
    by destruct (store_fault env OpInsert).
  - cbn [after_call]. rewrite updateConnection_world.
    destruct (store_fault env OpUpdate); [done |]. destruct H as [Hv Hi].
    split; cbn [connectionPools heap].
    + intros k h [_ Hk]%lookup_delete_Some. by eapply Hv.
    + intros c1 c2 h [_ H1]%lookup_delete_Some [_ H2]%lookup_delete_Some.
      by eapply Hi.
  - cbn [after_call]. rewrite deleteConnection_world.
    destruct (store_fault env OpDelete); [done |].
    destruct (connectionPools w !! cid) as [pool |]; [| exact H].
    destruct (heap w !! pool) as [pl |]; [| exact H].
    destruct H as [Hv Hi]. split; cbn [connectionPools heap].
    + intros k h Hk. rewrite length_insert.
      destruct (end_fault env (options pl)); [by eapply Hv |].
      apply lookup_delete_Some in Hk as [_ Hk]. by eapply Hv.
    + intros c1 c2 h H1 H2.
      destruct (end_fault env (options pl)); [by eapply Hi |].
      apply lookup_delete_Some in H1 as [_ H1].
      apply lookup_delete_Some in H2 as [_ H2]. by eapply Hi.
  - cbn [after_call]. destruct (testConnection_world env c w) as (tr & ->).
    by apply registry_sound_probe.
  - by_query_call env w cid H registry_sound_state. by apply registry_sound_construct.
  - by_query_call env w cid H registry_sound_state. by apply registry_sound_construct.
  - by_query_call env w cid H registry_sound_state. by apply registry_sound_construct.
  - by_query_call env w cid H registry_sound_state. by apply registry_sound_construct.
  - by_query_call env w cid H registry_sound_state. by apply registry_sound_construct.
Qed.

Lemma after_call_registry_current env call w :
  ends_cleanly env ->
  healthy w -> registry_current (after_call env call w).
Proof.
  intros Hend (Hids & [Hv Hi] & H).
  destruct call as [| cid | c | cid u | cid | c | cid | cid | cid t | cid q | cid t p s].
  - eapply registry_current_state; [apply quiet_getConnections | exact H].
  - eapply registry_current_state; [apply quiet_getConnection | exact H].
  - cbn [after_call]. rewrite createConnection_world.
    destruct (store_fault env OpInsert); [done |].
    intros k h (c' & pl & Hc & ? & ? & ?)%H. exists c', pl.
    cbn [db_connections heap]. rewrite lookup_insert_ne; [done |].
    destruct (Hids k c' Hc). lia.
  - cbn [after_call]. rewrite updateConnection_world.
    destruct (store_fault env OpUpdate); [done |].
    intros k h. cbn [connectionPools db_connections heap].
    intros [Hne (c' & pl & Hc & ? & ? & ?)%H]%lookup_delete_Some. exists c', pl.
    destruct (db_connections w !! cid); [rewrite lookup_insert_ne by done |]; done.
  - cbn [after_call]. rewrite deleteConnection_world.
    destruct (store_fault env OpDelete); [done |].
    destruct (connectionPools w !! cid) as [pool |] eqn:Hreg.
    + destruct (H cid pool Hreg) as (c0 & p0 & _ & Hp0 & _ & _). rewrite Hp0.
      rewrite Hend. intros k h. cbn [connectionPools db_connections heap].
      intros [Hne Hk]%lookup_delete_Some.
      destruct (H k h Hk) as (c' & pl & Hc & ? & ? & ?). exists c', pl.
      rewrite lookup_delete_ne by done.
      rewrite list_lookup_insert_ne; [done |].
      intros <-. apply Hne. by eapply Hi.
    + intros k h Hk. cbn [connectionPools] in Hk.
      destruct (H k h Hk) as (c' & pl & Hc & ? & ? & ?). exists c', pl.
      cbn [db_connections heap]. rewrite lookup_delete_ne; [done |].
      intros <-. congruence.
  - cbn [after_call]. destruct (testConnection_world env c w) as (tr & ->).
    by apply registry_current_probe.
  - by_query_call env w cid H registry_current_state. by apply registry_current_construct.
  - by_query_call env w cid H registry_current_state. by apply registry_current_construct.
  - by_query_call env w cid H registry_current_state. by apply registry_current_construct.
  - by_query_call env w cid H registry_current_state. by apply registry_current_construct.
  - by_query_call env w cid H registry_current_state. by apply registry_current_construct.
Qed.

Lemma after_call_healthy env call w :
  ends_cleanly env -> healthy w -> healthy (after_call env call w).
Proof.
  intros Hend Hw. pose proof Hw as (Hids & Hsound & _). split; [| split].
  - by apply after_call_ids_fresh.
  - by apply after_call_registry_sound.
  - by apply after_call_registry_current.
Qed.

Lemma empty_store_healthy : healthy empty_store.
Proof.
  split; [| split; [split |]]; intros *; cbn; by rewrite ?lookup_empty.
Qed.

(** ** The invariants over any sequence of calls *)


(** X2: the registry stays well formed.  After any sequence of calls every
    registry entry names a pool that exists, and two different profile
    identifiers never map to the same pool. *)
Theorem registry_stays_sound env calls : forall w,
  registry_sound w -> registry_sound (after_calls env calls w).
Proof.
  induction calls as [| call calls IH]; intros w H; [exact H |].
  cbn [after_calls fold_left]. apply IH. by apply after_call_registry_sound.
Qed.

(** X3: no stale pool.  With a driver that ends pools without failing,
    after any sequence of calls every cached pool belongs to a profile that
    is still stored, was constructed from the connection details stored for
    it now, and has not been ended. *)
Theorem cached_pools_stay_current env calls : forall w,
  ends_cleanly env ->
  healthy w -> registry_current (after_calls env calls w).
Proof.
  intros w Hend Hw.
  enough (healthy (after_calls env calls w)) as (_ & _ & H) by exact H.
  revert w Hw. induction calls as [| call calls IH]; intros w Hw; [exact Hw |].
  cbn [after_calls fold_left]. apply IH. by apply after_call_healthy.
Qed.

Lemma quiet_env_ends_cleanly : ends_cleanly quiet_env.
Proof. by intros cfg. Qed.


Lemma registry_stays_sound_witness :
  registry_sound (after_calls quiet_env sample_calls empty_store).
Proof.
  apply (registry_stays_sound quiet_env sample_calls empty_store).
  apply empty_store_healthy.
Defined.

Lemma cached_pools_stay_current_witness :
  registry_current (after_calls quiet_env sample_calls empty_store).
Proof.
  apply (cached_pools_stay_current quiet_env sample_calls empty_store).
  - apply quiet_env_ends_cleanly.
  - apply empty_store_healthy.
Defined.

(** ** Resolving pools *)

Lemma resolve_caches env cid w h :
  fst (getConnectionPool env cid w) = Ok h ->
  connectionPools (snd (getConnectionPool env cid w)) !! cid = Some h.
Proof.
  unfold getConnectionPool, cached_pool.
  destruct (connectionPools w !! cid) as [h' |] eqn:Hreg.
  - cbn. by intros [= <-].
  - destruct (store_fault env OpSelect) as [msg |] eqn:Hs.
    { unfold construct_pool, getConnection, store_call, bind. by rewrite Hs. }
    destruct (db_connections w !! cid) as [c |] eqn:Hdb.
    + rewrite (construct_pool_found env cid c w Hs Hdb). cbn.
      intros [= <-]. apply lookup_insert_eq.
    + by rewrite (construct_pool_missing env cid w Hs Hdb).
Qed.

Lemma resolve_keeps_entries env cid w k h :
  connectionPools w !! k = Some h ->
  connectionPools (snd (getConnectionPool env cid w)) !! k = Some h.
Proof.
  intros Hk.
  destruct (getConnectionPool_world env cid w) as [-> | (c & Hmiss & _ & _ & ->)];
    [done |].
  cbn. rewrite lookup_insert_ne; [done | congruence].
Qed.

Lemma resolve_registry_sound env cid w :
  registry_sound w -> registry_sound (snd (getConnectionPool env cid w)).
Proof.
  intros H.
  destruct (getConnectionPool_world env cid w) as [-> | (c & Hmiss & _ & _ & ->)];
    [done | by apply registry_sound_construct].
Qed.

(** X4: two different profile identifiers never resolve to the same pool:
    in a world whose registry is well formed, whatever pool [resolve] gives
    for one identifier differs from the pool it then gives for another. *)
Theorem distinct_profiles_distinct_pools env w cid1 cid2 h1 h2 :
  registry_sound w ->
  cid1 <> cid2 ->
  fst (getConnectionPool env cid1 w) = Ok h1 ->
  fst (getConnectionPool env cid2 (snd (getConnectionPool env cid1 w))) = Ok h2 ->
  h1 <> h2.
Proof.
  intros Hw Hne H1 H2 <-.
  apply resolve_caches in H1. apply resolve_caches in H2.
  pose proof (resolve_keeps_entries env cid2 _ cid1 h1 H1) as H1'.
  pose proof (resolve_registry_sound env cid2 _
                (resolve_registry_sound env cid1 w Hw)) as [_ Hinj].
  apply Hne. by eapply Hinj.
Qed.

(** Two stored profiles, nothing cached. *)
Lemma distinct_profiles_distinct_pools_witness :
  let w := mkWorld {[7 := sample_profile; 8 := sample_profile]} 9 ∅ [] [] in
  fst (getConnectionPool quiet_env 7 w) = Ok 0%nat
  /\ fst (getConnectionPool quiet_env 8 (snd (getConnectionPool quiet_env 7 w)))
     = Ok 1%nat
  /\ (0 <> 1)%nat.
Proof.
  intros w. split; [reflexivity |]. split; [reflexivity |].
  apply (distinct_profiles_distinct_pools quiet_env w 7 8 0%nat 1%nat).
  - split; intros *; cbn; by rewrite lookup_empty.
  - lia.
  - reflexivity.
  - reflexivity.
Defined.

(** ** Creating, reading and deleting profiles *)

(** X5: create then read.  In a store whose identifiers are fresh and that
    does not fail, [createConnection] returns the inserted row with the next
    serial value as [id], defaults filled in (port 5432, ssl false when
    absent); [getConnection] of that [id] then returns the same row, and
    every profile stored before is still stored, unchanged. *)
Theorem create_then_get env c w :
  ids_fresh w ->
  store_fault env OpInsert = None ->
  store_fault env OpSelect = None ->
  let row := insert_row (db_serial w) c in
  let w' := snd (createConnection env c w) in
  fst (createConnection env c w) = Ok row
  /\ id row = db_serial w
  /\ port row = default 5432 (i_port c)
  /\ fst (getConnection env (id row) w') = Ok (Some row)
  /\ (forall k r, db_connections w !! k = Some r ->
        fst (getConnection env k w') = Ok (Some r)).
Proof.
  intros Hids Hi Hs row w'. subst w'.
  rewrite createConnection_value, createConnection_world, Hi.
  unfold getConnection, store_call, bind. rewrite Hs. cbn.
  repeat split.
  - by rewrite lookup_insert_eq.
  - intros k r Hk. rewrite lookup_insert_ne; [by rewrite Hk |].
    destruct (Hids k r Hk). lia.
Qed.

Lemma create_then_get_witness :
  fst (createConnection quiet_env sample_insert stored_world)
    = Ok (insert_row 8 sample_insert)
  /\ fst (getConnection quiet_env 7
            (snd (createConnection quiet_env sample_insert stored_world)))
     = Ok (Some sample_profile).
Proof.
  assert (ids_fresh stored_world) as Hids.
  { intros k r. unfold stored_world. cbn [db_connections db_serial].
    intros [<- <-]%lookup_singleton_Some. cbn. lia. }
  destruct (create_then_get quiet_env sample_insert stored_world Hids eq_refl eq_refl)
    as (H1 & _ & _ & _ & H5).
  split; [exact H1 | apply H5; reflexivity].
Defined.

(** X6: delete.  With a store that does not fail and a driver that ends
    pools cleanly, [deleteConnection] answers whether the profile existed;
    afterwards the profile cannot be read, it has no registry entry, its
    cached pool (if any) has been ended, a second delete answers [false], and
    every other profile is untouched. *)
Theorem delete_then_gone env cid w :
  store_fault env OpDelete = None ->
  store_fault env OpSelect = None ->
  ends_cleanly env ->
  registry_sound w ->
  let w' := snd (deleteConnection env cid w) in
  fst (deleteConnection env cid w) = Ok (bool_decide (is_Some (db_connections w !! cid)))
  /\ fst (getConnection env cid w') = Ok None
  /\ connectionPools w' !! cid = None
  /\ (forall pool, connectionPools w !! cid = Some pool ->
        ended <$> heap w' !! pool = Some true)
  /\ fst (deleteConnection env cid w') = Ok false
  /\ (forall k, k <> cid -> db_connections w' !! k = db_connections w !! k).
Proof.
  intros Hd Hs Hend [Hv _] w'. subst w'.
  assert (fst (deleteConnection env cid w)
          = Ok (bool_decide (is_Some (db_connections w !! cid)))) as Hres.
  { unfold deleteConnection, store_call, bind. rewrite Hd. heap_simpl.
    destruct (connectionPools w !! cid) as [pool |] eqn:Hreg; heap_simpl; [| done].
    unfold pool_end. heap_simpl.
    destruct (lookup_lt_is_Some_2 (heap w) pool (Hv cid pool Hreg)) as [p Hp].
    rewrite Hp, Hend. done. }
  split; [exact Hres |].
  rewrite deleteConnection_world, Hd.
  destruct (connectionPools w !! cid) as [pool |] eqn:Hreg.
  - destruct (lookup_lt_is_Some_2 (heap w) pool (Hv cid pool Hreg)) as [p Hp].
    rewrite Hp, Hend.
    unfold getConnection, deleteConnection, store_call, bind. rewrite Hs, Hd.
    heap_simpl. rewrite !lookup_delete_eq. heap_simpl.
    repeat split; try done.
    + intros pool' [= <-].
      rewrite list_lookup_insert_eq by (by eapply lookup_lt_Some). done.
    + intros k Hk. by rewrite lookup_delete_ne.
  - unfold getConnection, deleteConnection, store_call, bind. rewrite Hs, Hd.
    heap_simpl. rewrite !lookup_delete_eq, Hreg. heap_simpl.
    repeat split; try done.
    intros k Hk. by rewrite lookup_delete_ne.
Qed.

Lemma delete_then_gone_witness :
  fst (deleteConnection quiet_env 7 cached_world) = Ok true
  /\ fst (deleteConnection quiet_env 7
            (snd (deleteConnection quiet_env 7 cached_world))) = Ok false.
Proof.
  assert (registry_sound cached_world) as Hw.
  { split; intros *; unfold cached_world; cbn [connectionPools heap].
    - intros [_ <-]%lookup_singleton_Some. cbn. lia.
    - intros [<- _]%lookup_singleton_Some [<- _]%lookup_singleton_Some. done. }
  destruct (delete_then_gone quiet_env 7 cached_world eq_refl eq_refl
              quiet_env_ends_cleanly Hw) as (H1 & _ & _ & _ & H5 & _).
  split; [exact H1 | exact H5].
Defined.

(** X7: a delete whose [pool.end()] fails is left half done.  The row is
    deleted before the pool is ended and the registry entry is dropped only
    afterwards, so when ending the cached pool fails the call rejects with
    the driver's error, the profile is gone from the store, and the registry
    still maps the identifier to the pool, which later resolves return
    although it has been ended. *)
Theorem failed_end_leaves_entry env cid w pool p msg :
  store_fault env OpDelete = None ->
  connectionPools w !! cid = Some pool ->
  heap w !! pool = Some p ->
  end_fault env (options p) = Some msg ->
  let w' := snd (deleteConnection env cid w) in
  fst (deleteConnection env cid w) = Throw (Error msg)
  /\ db_connections w' !! cid = None
  /\ connectionPools w' !! cid = Some pool
  /\ getConnectionPool env cid w' = (Ok pool, w')
  /\ ended <$> heap w' !! pool = Some true.
Proof.
  intros Hd Hreg Hp He w'. subst w'.
  rewrite deleteConnection_world, Hd, Hreg, Hp, He.
  split.
  - unfold deleteConnection, store_call, bind. rewrite Hd. heap_simpl.
    rewrite Hreg. unfold pool_end. heap_simpl. by rewrite Hp, He.
  - cbn [db_connections connectionPools heap].
    rewrite lookup_delete_eq. repeat split; try done.
    + unfold getConnectionPool, cached_pool. cbn [connectionPools]. by rewrite Hreg.
    + rewrite list_lookup_insert_eq by (by eapply lookup_lt_Some). done.
Qed.

Lemma failed_end_leaves_entry_witness :
  fst (deleteConnection stuck_end_env 7 cached_world)
    = Throw (Error "Called end on pool more than once")
  /\ fst (getConnectionPool stuck_end_env 7
            (snd (deleteConnection stuck_end_env 7 cached_world))) = Ok 0%nat.
Proof.
  destruct (failed_end_leaves_entry stuck_end_env 7 cached_world 0%nat
              (mkPool (registry_options sample_profile) false 0)
              "Called end on pool more than once"
              eq_refl eq_refl eq_refl eq_refl) as (H1 & _ & _ & H4 & _).
  split; [exact H1 |]. by rewrite H4.
Defined.

(** X8: every successful update evicts.  [updateConnection] drops the
    registry entry of the identifier whenever the store accepts the update,
    whatever the update carries.  In particular after an update that sets
    only the display name the stored connection details are the same as
    before, yet the pool cached for them is no longer registered, and the
    next resolve constructs another pool with the same options. *)
Theorem update_always_evicts env cid u w r pool :
  store_fault env OpUpdate = None ->
  store_fault env OpSelect = None ->
  db_connections w !! cid = Some r ->
  connectionPools w !! cid = Some pool ->
  let w' := snd (updateConnection env cid u w) in
  connectionPools w' !! cid = None
  /\ fst (getConnectionPool env cid w') = Ok (length (heap w))
  /\ (forall n, u = rename_to n ->
        db_connections w' !! cid = Some (update_row u r)
        /\ registry_options (update_row u r) = registry_options r
        /\ heap (snd (getConnectionPool env cid w'))
           = heap w ++ [mkPool (registry_options r) false 0]).
Proof.
  intros Hu Hs Hr Hreg w'. subst w'.
  rewrite updateConnection_world, Hu, Hr.
  set (w1 := mkWorld _ _ _ _ _).
  assert (connectionPools w1 !! cid = None) as Hmiss by apply lookup_delete_eq.
  assert (db_connections w1 !! cid = Some (update_row u r)) as Hdb
    by apply lookup_insert_eq.
  split; [exact Hmiss |].
  unfold getConnectionPool, cached_pool. rewrite Hmiss.
  rewrite (construct_pool_found env cid _ w1 Hs Hdb). split; [done |].
  intros n ->. repeat split; try done.
Qed.

Lemma update_always_evicts_witness :
  connectionPools (snd (updateConnection quiet_env 7 (rename_to "archive") cached_world))
    !! 7 = None
  /\ fst (getConnectionPool quiet_env 7
            (snd (updateConnection quiet_env 7 (rename_to "archive") cached_world)))
     = Ok 1%nat.
Proof.
  destruct (update_always_evicts quiet_env 7 (rename_to "archive") cached_world
              sample_profile 0%nat eq_refl eq_refl eq_refl eq_refl)
    as (H1 & H2 & _).
  split; [exact H1 | exact H2].
Defined.

(** ** Which pool a call talks to *)

Lemma traffic_of_resolved {A} env cid (k : nat -> M A) w :
  (forall pool, quiet (k pool)) ->
  (forall pool, emits (through_pool pool) (k pool)) ->
  exists evs,
    trace (snd (bind (getConnectionPool env cid) k w)) = trace w ++ evs
    /\ (evs = []
        \/ exists pool,
             connectionPools (snd (bind (getConnectionPool env cid) k w)) !! cid
               = Some pool
             /\ Forall (through_pool pool) evs).
Proof.
  intros Hq Hk.
  pose proof (resolve_then_quiet env cid k w Hq) as Hstate.
  apply state_of_eta in Hstate as (_ & _ & Hreg & _).
  unfold bind in *.
  pose proof (resolve_caches env cid w) as Hcache.
  destruct (getConnectionPool_world env cid w) as [Hw | (c & _ & _ & Hf & Hw)].
  - destruct (getConnectionPool env cid w) as [[pool | e] w1]; cbn [fst snd] in *;
      subst w1; [| exists []; split; [by rewrite app_nil_r | by left]].
    destruct (Hk pool w) as (evs & Ht & HP). exists evs. split; [done |].
    right. exists pool. rewrite Hreg. split; [by apply Hcache | done].
  - destruct (getConnectionPool env cid w) as [[pool | e] w1]; cbn [fst snd] in *;
      [| done].
    injection Hf as ->. subst w1.
    destruct (Hk (length (heap w)) (after_construct cid c w)) as (evs & Ht & HP).
    exists (ENewPool (length (heap w)) (registry_options c) :: evs).
    rewrite Ht. cbn [after_construct trace]. rewrite <- app_assoc.
    split; [done |]. right. exists (length (heap w)). rewrite Hreg.
    split; [by apply Hcache |]. constructor; [done | exact HP].
Qed.

Ltac through_steps :=
  repeat first
    [ apply emits_ret | apply emits_throw | apply emits_first_count
    | apply emits_pool_query; reflexivity
    | apply emits_bind; [| intros ?] ].

Lemma emits_try_catch {A} P (m : M A) (h : JsError -> M A) :
  emits P m -> (forall e, emits P (h e)) -> emits P (try_catch m h).
Proof.
  intros Hm Hh w. unfold try_catch. destruct (Hm w) as (evs1 & Ht1 & HP1).
  destruct (m w) as [[a | e] w1]; cbn [snd] in *; [by exists evs1 |].
  destruct (Hh e w1) as (evs2 & Ht2 & HP2).
  exists (evs1 ++ evs2). rewrite Ht2, Ht1, app_assoc. split; [done |].
  by apply Forall_app.
Qed.

(** X9: a call never talks to another profile's pool.  Whatever the
    listing, introspection, execution or paging call does, all the driver
    traffic it causes (the construction of a pool and every query) goes
    through one pool, and that pool is the one registered under the call's
    connection identifier when the call ends. *)
Theorem traffic_stays_on_own_pool env call cid w :
  match call with
  | CallListDatabases c | CallListTables c | CallGetTableSchema c _
  | CallExecuteQuery c _ | CallGetTableData c _ _ _ => c = cid
  | _ => False
  end ->
  exists evs,
    trace (after_call env call w) = trace w ++ evs
    /\ (evs = []
        \/ exists pool,
             connectionPools (after_call env call w) !! cid = Some pool
             /\ Forall (through_pool pool) evs).
Proof.
  destruct call; intros Hc; try done; subst; cbn [after_call];
    unfold listDatabases, listTables, getTableSchema, executeQuery, getTableData;
    (apply traffic_of_resolved;
     [ intros pool; quiet_steps
     | intros pool; through_steps;
       try (apply emits_try_catch; [| intros ?]); through_steps ]).
Qed.

Lemma traffic_stays_on_own_pool_witness :
  exists evs,
    trace (after_call select1_env (CallExecuteQuery 7 "SELECT 1 AS x") stored_world)
      = trace stored_world ++ evs
    /\ (evs = []
        \/ exists pool,
             connectionPools
               (after_call select1_env (CallExecuteQuery 7 "SELECT 1 AS x") stored_world)
               !! 7 = Some pool
             /\ Forall (through_pool pool) evs).
Proof.
  apply (traffic_stays_on_own_pool select1_env
           (CallExecuteQuery 7 "SELECT 1 AS x") 7 stored_world).
  reflexivity.
Defined.

(** ** The remaining handlers *)

(** X10: the test endpoint cannot report a failed probe.  For every valid
    body and every behaviour of the driver, POST /api/connections/test
    answers 200 with [{success: true}]: [testConnection] reports failure
    through its result, which the handler does not read, and it never
    throws, so the 400 branch is never taken.  This holds in particular when
    the target refuses the connection and the probe answers [false]. *)
Theorem test_route_always_succeeds env c w :
  fst (test_connection_route env (Valid c) w)
    = Ok (mkResponse 200 (Some (VObj [("success", VBool true)])))
  /\ (forall msg, connect_fault env (probe_options c) = Some msg ->
        fst (testConnection env c w) = Ok false).
Proof.
  split.
  - unfold test_connection_route, try_catch, bind. cbn [zod_parse]. heap_simpl.
    by destruct (testConnection_total env c w) as (b & tr & ->).
  - intros msg Hmsg. by rewrite testConnection_run, Hmsg.
Qed.

(** X11: an update is stored whatever the probe says.  For a stored profile
    and a store that does not fail, PUT /api/connections/:id with a valid
    body answers 200 with the updated profile and stores the updated row,
    for every behaviour of the driver: also when the body changes
    connection details and the target refuses them. *)
Theorem update_persists_whatever_probe_says env cid u r w :
  store_fault env OpSelect = None ->
  store_fault env OpUpdate = None ->
  db_connections w !! cid = Some r ->
  let out := update_connection env cid (Valid u) w in
  fst out = Ok (json 200 (VObj (public_row (update_row u r))))
  /\ db_connections (snd out) !! cid = Some (update_row u r)
  /\ (connection_details_changing u = true ->
      forall msg, connect_fault env (probe_options (merged_for_test u r)) = Some msg ->
      fst (testConnection env (merged_for_test u r) w) = Ok false).
Proof.
  intros Hs Hu Hr out. subst out. split; [| split].
  - rewrite update_connection_sends, Hr.
    unfold update_response, updated_response, store_error. rewrite Hs, Hu.
    by destruct (connection_details_changing u).
  - unfold update_connection, try_catch at 1, bind at 1. cbn [zod_parse].
    heap_simpl. unfold bind at 1.
    assert (forall w0, db_connections w0 = db_connections w ->
              db_connections
                (snd (bind (updateConnection env cid u)
                        (fun updatedConnection =>
                           match updatedConnection with
                           | Some updatedConnection0 =>
                               fun w1 : World =>
                                 (Ok (json 200 (VObj (obj_omit "password"
                                        (row_object updatedConnection0)))), w1)
                           | None => fun w1 : World => (Ok not_found, w1)
                           end) w0)) !! cid = Some (update_row u r)) as Hstore.
    { intros w0 Hw0. unfold bind.
      pose proof (updateConnection_world env cid u w0) as Hw.
      pose proof (updateConnection_value env cid u w0) as Hv.
      rewrite Hu, Hw0, Hr in Hw. rewrite Hu, Hw0, Hr in Hv.
      destruct (updateConnection env cid u w0) as [[[r' |] | e] w2];
        cbn [fst snd] in *; simplify_eq; cbn; apply lookup_insert_eq. }
    destruct (connection_details_changing u).
    + unfold getConnection, store_call, bind at 1. unfold bind at 1.
      rewrite Hs. heap_simpl. unfold bind at 1. heap_simpl. rewrite Hr.
      unfold try_catch at 1, bind at 1.
      destruct (testConnection_total env (merged_for_test u r) w) as (b & tr & ->).
      heap_simpl.
      specialize (Hstore (after_probe (merged_for_test u r) w tr) eq_refl).
      revert Hstore.
      lazymatch goal with
      | |- context [let (_, _) := ?m in _] => destruct m as [[r0 | e] w2]
      end; by intros Hstore.
    + heap_simpl. specialize (Hstore w eq_refl). revert Hstore.
      lazymatch goal with
      | |- context [let (_, _) := ?m in _] => destruct m as [[r0 | e] w2]
      end; by intros Hstore.
  - intros _ msg Hmsg. by rewrite testConnection_run, Hmsg.
Qed.

(** The refusing target: the probe answers [false], the endpoint says
    success. *)
Lemma test_route_always_succeeds_witness :
  fst (test_connection_route refusing_env (Valid sample_insert) empty_store)
    = Ok (mkResponse 200 (Some (VObj [("success", VBool true)])))
  /\ fst (testConnection refusing_env sample_insert empty_store) = Ok false.
Proof.
  destruct (test_route_always_succeeds refusing_env sample_insert empty_store)
    as [H1 H2].
  split; [exact H1 | by eapply H2].
Defined.

(** Moving profile 7 to a host that refuses connections. *)
Lemma update_persists_whatever_probe_says_witness :
  host <$> db_connections
             (snd (update_connection refusing_env 7 (Valid new_host) stored_world)) !! 7
    = Some "db2.internal"
  /\ fst (testConnection refusing_env (merged_for_test new_host sample_profile)
            stored_world) = Ok false.
Proof.
  destruct (update_persists_whatever_probe_says refusing_env 7 new_host
              sample_profile stored_world eq_refl eq_refl eq_refl)
    as (_ & H2 & H3).
  split; [by rewrite H2 | by eapply H3].
Defined.

(** X12: the query endpoint wants a non-empty string.  When [req.body.query]
    is missing, not a string, or the empty string, POST /api/query/:id
    answers 400 "Query is required" and nothing else happens: no pool is
    resolved or constructed and no query is sent. *)
Theorem query_route_requires_text env cid query w :
  (forall q, query = VStr q -> q = "") ->
  query_route env cid query w
    = (Ok (mkResponse 400 (Some (VObj [("message", VStr "Query is required")]))), w).
Proof.
  intros Hq. unfold query_route, try_catch.
  destruct query as [| | b | n | | q | items | props]; try reflexivity.
  by rewrite (Hq q eq_refl).
Qed.

Lemma query_route_requires_text_witness :
  query_route quiet_env 7 (VStr "") stored_world
    = (Ok (mkResponse 400 (Some (VObj [("message", VStr "Query is required")]))),
       stored_world)
  /\ query_route quiet_env 7 (VNum 42) stored_world
    = (Ok (mkResponse 400 (Some (VObj [("message", VStr "Query is required")]))),
       stored_world).
Proof.
  split; apply query_route_requires_text; intros q [= <-]; reflexivity.
Defined.






(** ** Saved queries *)

Lemma elem_of_insert_query q x l :
  x ∈ insert_query_by_name q l <-> x = q \/ x ∈ l.
Proof.
  induction l as [| d l IH]; cbn.
  - rewrite !elem_of_cons. tauto.
  - destruct (String.leb (sq_name q) (sq_name d));
      rewrite !elem_of_cons, ?IH; tauto.
Qed.

Lemma elem_of_order_queries x l : x ∈ order_queries_by_name l <-> x ∈ l.
Proof.
  induction l as [| d l IH]; [done |].
  cbn. rewrite elem_of_insert_query, elem_of_cons.
  unfold order_queries_by_name in IH. by rewrite IH.
Qed.

Lemma elem_of_stored t q :
  q ∈ (snd <$> map_to_list (saved_queries t)) <-> stored_query t q.
Proof.
  rewrite list_elem_of_fmap. split.
  - intros ([k q'] & -> & Hk%elem_of_map_to_list). by exists k.
  - intros (k & Hk). exists (k, q). split; [done |]. by apply elem_of_map_to_list.
Qed.

(** X15: the saved-query filter.  With a store that does not fail,
    [getSavedQueries(id)] for a non-zero [id] returns exactly the stored
    queries whose [connectionId] is [id]; for [0], like for no argument at
    all, the filter is skipped and every stored query is returned, those of
    other connections included.  The route passes [?connectionId=0] on as
    the number 0, so that request lists all saved queries. *)
Theorem saved_queries_filter env t :
  store_fault env OpSelect = None ->
  (forall cid qs,
      cid <> 0 ->
      fst (getSavedQueries env (Some cid) t) = Ok qs ->
      forall q, q ∈ qs <-> stored_query t q /\ sq_connectionId q = Some cid)
  /\ getSavedQueries env (Some 0) t = getSavedQueries env None t
  /\ (forall qs,
        fst (getSavedQueries env None t) = Ok qs ->
        forall q, q ∈ qs <-> stored_query t q)
  /\ saved_queries_route env (Some "0") t = saved_queries_route env None t.
Proof.
  intros Hs. unfold saved_queries_route, getSavedQueries, store_try. rewrite Hs.
  split; [| split; [done | split; [| done]]].
  - intros cid qs Hcid. unfold truthy_num.
    destruct (Z.eqb_spec cid 0) as [-> | _]; [done |]. cbn.
    intros [= <-] q.
    rewrite elem_of_order_queries, list_elem_of_filter, elem_of_stored. tauto.
  - cbn. intros qs [= <-] q. by rewrite elem_of_order_queries, elem_of_stored.
Qed.

Lemma saved_queries_filter_witness :
  sq_id <$> default [] (match fst (getSavedQueries quiet_env (Some 7) sample_queries)
                        with Ok qs => Some qs | Throw _ => None end) = [1]
  /\ getSavedQueries quiet_env (Some 0) sample_queries
     = getSavedQueries quiet_env None sample_queries.
Proof.
  split; [vm_compute; reflexivity |].
  apply (proj1 (proj2 (saved_queries_filter quiet_env sample_queries eq_refl))).
Defined.

(** Creating, reading, changing and deleting a saved query. *)



(** ** The request log *)

Lemma full_log_line_eq method path statusCode duration captured :
  log_line true method path statusCode duration captured =
    Some (let logLine := full_log_line method path statusCode duration captured in
          if (80 <? length logLine)%nat then take 79 logLine ++ [ellipsis]
          else logLine).
Proof.
  unfold log_line, full_log_line. destruct captured as [text |]; cbn zeta.
  - by rewrite <- !app_assoc.
  - by rewrite !app_nil_r.
Qed.

(** X17: log lines are bounded.  A logged line never has more than 80 code
    units; a line of at most 80 units is logged whole; a longer one is cut
    to its first 79 units followed by an ellipsis, so what is logged of a
    response body is at most what fits there.  Requests outside [/api] are
    not logged. *)
Theorem log_line_bounded method path statusCode duration captured :
  let whole := full_log_line method path statusCode duration captured in
  log_line false method path statusCode duration captured = None
  /\ exists line,
       log_line true method path statusCode duration captured = Some line
       /\ (length line <= 80)%nat
       /\ take 79 line = take 79 whole
       /\ ((length whole <= 80)%nat -> line = whole)
       /\ ((80 < length whole)%nat ->
           length line = 80%nat /\ line !! 79%nat = Some ellipsis).
Proof.
  intros whole. split; [done |]. rewrite full_log_line_eq. fold whole. cbv zeta.
  eexists. split; [done |].
  destruct (Nat.ltb_spec 80 (length whole)) as [Hlong | Hshort].
  - assert (length (take 79 whole) = 79%nat) as Hlen
      by (rewrite length_take; lia).
    repeat split.
    + rewrite length_app, Hlen. cbn. lia.
    + rewrite take_app_le by lia. rewrite take_take. f_equal.
    + lia.
    + rewrite length_app, Hlen. cbn. lia.
    + rewrite lookup_app_r by lia. by rewrite Hlen.
  - repeat split; try done; lia.
Qed.

Lemma log_line_bounded_witness :
  exists line,
    log_line true (units "POST") (units "/api/query/7") 200 12
      (Some (units "{'rows':[{'x':1}],'rowCount':1,'fields':[{'name':'x','dataTypeID':23}]}"))
      = Some line
    /\ length line = 80%nat.
Proof.
  destruct (log_line_bounded (units "POST") (units "/api/query/7") 200 12
              (Some (units "{'rows':[{'x':1}],'rowCount':1,'fields':[{'name':'x','dataTypeID':23}]}")))
    as (_ & line & Hline & _ & _ & _ & Hlong).
  exists line. split; [exact Hline |]. apply Hlong. vm_compute. lia.
Defined.

(** ** The port search *)

Lemma startListening_step net m fuel cur port host :
  startListening net m (S fuel) cur port host =
    match net port host with
    | Listening => Some (Serving port host, [(port, host)])
    | AddrInUse =>
        if (cur <? m)%nat then
          match startListening net m fuel (S cur) (port + 1) host with
          | Some (r, l) => Some (r, (port, host) :: l)
          | None => None
          end
        else Some (Crashed port host, [(port, host)])
    | NotSupported =>
        if String.eqb host "0.0.0.0" then
          match startListening net m fuel cur port "127.0.0.1" with
          | Some (r, l) => Some (r, (port, host) :: l)
          | None => None
          end
        else Some (Crashed port host, [(port, host)])
    | OtherError _ => Some (Crashed port host, [(port, host)])
    end.
Proof. reflexivity. Qed.

Lemma startListening_more_fuel net m fuel : forall cur port host x,
  startListening net m fuel cur port host = Some x ->
  startListening net m (S fuel) cur port host = Some x.
Proof.
  induction fuel as [| fuel IH]; intros cur port host x; [done |].
  rewrite (startListening_step net m (S fuel)), (startListening_step net m fuel).
  destruct (net port host); try done.
  - destruct (cur <? m)%nat; [| done].
    destruct (startListening net m fuel (S cur) (port + 1) host) as [[r l] |] eqn:E;
      [| done].
    apply IH in E. by rewrite E.
  - destruct (String.eqb host "0.0.0.0"); [| done].
    destruct (startListening net m fuel cur port "127.0.0.1") as [[r l] |] eqn:E;
      [| done].
    apply IH in E. by rewrite E.
Qed.

Lemma startListening_enough_fuel net m fuel fuel' cur port host x :
  (fuel <= fuel')%nat ->
  startListening net m fuel cur port host = Some x ->
  startListening net m fuel' cur port host = Some x.
Proof.
  induction 1 as [| fuel' _ IH]; [done |].
  intros H. by apply startListening_more_fuel, IH.
Qed.

(** The calls still possible from a state of the search. *)
Definition calls_left (m cur : nat) (host : string) : nat :=
  (m - cur + 1 + (if String.eqb host "0.0.0.0" then 1 else 0))%nat.

Ltac search_done :=
  first
    [ done
    | congruence
    | lia
    | destruct (String.eqb _ "0.0.0.0"); lia
    | repeat constructor; cbn; lia ].

Lemma startListening_terminates net m fuel : forall cur port host,
  (cur <= m)%nat ->
  (calls_left m cur host <= fuel)%nat ->
  exists r tried,
    startListening net m fuel cur port host = Some (r, tried)
    /\ (length tried <= calls_left m cur host)%nat
    /\ Forall (fun a => port <= fst a <= port + Z.of_nat (m - cur)) tried
    /\ match r with
       | Serving p h => net p h = Listening /\ last tried = Some (p, h)
       | Crashed p h => net p h <> Listening /\ last tried = Some (p, h)
       end.
Proof.
  induction fuel as [| fuel IH]; intros cur port host Hcur Hfuel.
  { unfold calls_left in Hfuel. lia. }
  rewrite startListening_step. unfold calls_left in *.
  destruct (net port host) eqn:Hnet.
  - eexists _, _. split; [done |]. cbn. repeat split; search_done.
  - destruct (Nat.ltb_spec cur m) as [Hlt | Hge].
    + destruct (IH (S cur) (port + 1) host) as (r & tried & -> & Hlen & Hports & Hr);
        [lia | unfold calls_left; search_done |].
      unfold calls_left in Hlen.
      eexists _, _. split; [done |]. cbn [length]. split; [| split].
      * search_done.
      * constructor; [cbn; lia |].
        eapply Forall_impl; [exact Hports |]. cbn. lia.
      * destruct tried as [| a tried]; [by destruct r as [? ? | ? ?]; destruct Hr |].
        by destruct r.
    + eexists _, _. split; [done |]. cbn. repeat split; search_done.
  - destruct (String.eqb_spec host "0.0.0.0") as [-> | Hne].
    + destruct (IH cur port "127.0.0.1") as (r & tried & -> & Hlen & Hports & Hr);
        [lia | unfold calls_left; cbn; lia |].
      unfold calls_left in Hlen. cbn in Hlen.
      eexists _, _. split; [done |]. cbn [length]. split; [| split].
      * lia.
      * constructor; [cbn; lia | exact Hports].
      * destruct tried as [| a tried]; [by destruct r as [? ? | ? ?]; destruct Hr |].
        by destruct r.
    + eexists _, _. split; [done |]. cbn. repeat split; search_done.
  - eexists _, _. split; [done |]. cbn. repeat split; search_done.
Qed.

Lemma startListening_first_free net m (k : nat) : forall fuel cur port host,
  (cur + k <= m)%nat ->
  (k < fuel)%nat ->
  (forall j : nat, (j < k)%nat -> net (port + Z.of_nat j) host = AddrInUse) ->
  net (port + Z.of_nat k) host = Listening ->
  fst <$> startListening net m fuel cur port host
    = Some (Serving (port + Z.of_nat k) host).
Proof.
  induction k as [| k IH]; intros fuel cur port host Hk Hfuel Hbusy Hfree.
  - destruct fuel as [| fuel]; [lia |]. rewrite startListening_step.
    rewrite Z.add_0_r in Hfree. rewrite Hfree. cbn. by rewrite Z.add_0_r.
  - destruct fuel as [| fuel]; [lia |]. rewrite startListening_step.
    pose proof (Hbusy 0%nat ltac:(lia)) as H0. rewrite Z.add_0_r in H0. rewrite H0.
    destruct (Nat.ltb_spec cur m) as [_ | ?]; [| lia].
    specialize (IH fuel (S cur) (port + 1) host ltac:(lia) ltac:(lia)).
    replace (port + Z.of_nat (S k)) with (port + 1 + Z.of_nat k) in * by lia.
    rewrite <- IH; [by destruct (startListening net m fuel (S cur) (port + 1) host)
                             as [[? ?] |] | | done].
    intros j Hj. specialize (Hbusy (S j) ltac:(lia)).
    by replace (port + Z.of_nat (S j)) with (port + 1 + Z.of_nat j) in Hbusy by lia.
Qed.

(** X18: the port search ends and finds the first free port.  Seven calls
    to [listen] always suffice for [tryListenOnPort] with its default of 5
    attempts, and more fuel changes nothing.  The addresses tried are at
    most seven, with ports from the first port to five above it.  A result
    [Serving] names an address on which [listen] succeeded.  If one of the
    six ports from the first on is free on the given host and all before it
    are in use, the server ends up serving on exactly that port. *)
Theorem port_search_finds_first_free net port host :
  exists r tried,
    tryListenOnPort net 7 port None host = Some (r, tried)
    /\ (forall fuel, (7 <= fuel)%nat ->
          tryListenOnPort net fuel port None host = Some (r, tried))
    /\ (length tried <= 7)%nat
    /\ Forall (fun a => port <= fst a <= port + 5) tried
    /\ (forall p h, r = Serving p h -> net p h = Listening)
    /\ (forall k : nat,
          (k <= 5)%nat ->
          (forall j : nat, (j < k)%nat -> net (port + Z.of_nat j) host = AddrInUse) ->
          net (port + Z.of_nat k) host = Listening ->
          r = Serving (port + Z.of_nat k) host).
Proof.
  unfold tryListenOnPort. cbn [default].
  destruct (startListening_terminates net 5 7 0 port host ltac:(lia))
    as (r & tried & Hrun & Hlen & Hports & Hr).
  { unfold calls_left. destruct (String.eqb host "0.0.0.0"); lia. }
  exists r, tried. split; [exact Hrun |]. repeat split.
  - intros fuel Hfuel. by eapply startListening_enough_fuel.
  - unfold calls_left in Hlen. destruct (String.eqb host "0.0.0.0"); lia.
  - eapply Forall_impl; [exact Hports |]. cbn. lia.
  - intros p h ->. by destruct Hr.
  - intros k Hk Hbusy Hfree.
    pose proof (startListening_first_free net 5 k 7 0 port host
                  ltac:(lia) ltac:(lia) Hbusy Hfree) as H.
    rewrite Hrun in H. by injection H.
Qed.

(** Ports 5000 to 5002 taken: the server ends up on 5003. *)
Lemma port_search_finds_first_free_witness :
  fst <$> tryListenOnPort busy_net 7 5000 None "0.0.0.0"
    = Some (Serving 5003 "0.0.0.0").
Proof.
  destruct (port_search_finds_first_free busy_net 5000 "0.0.0.0")
    as (r & tried & Hrun & _ & _ & _ & _ & Hfirst).
  rewrite Hrun. cbn. f_equal.
  apply (Hfirst 3%nat); [lia | | reflexivity].
  intros j Hj. unfold busy_net.
  destruct (Z.ltb_spec (5000 + Z.of_nat j) 5003); [done | lia].
Defined.

(** X19: where the port search gives up, and the fallback host.  With all
    six ports from the first on in use, [tryListenOnPort] calls [listen] six
    times, once per port, and rethrows the error of the sixth: the default
    [maxAttempts] of 5 counts the retries, not the ports.  An address that
    answers ENOTSUP on host 0.0.0.0 is tried again on 127.0.0.1 without
    using up an attempt, so the six ports are still searched there; on any
    other host ENOTSUP ends the start-up. *)
Theorem port_search_gives_up net port host :
  ((forall j, 0 <= j <= 5 -> net (port + j) host = AddrInUse) ->
   tryListenOnPort net 7 port None host
     = Some (Crashed (port + 5) host, (fun j => (port + j, host)) <$> seqZ 0 6))
  /\ (net port "0.0.0.0" = NotSupported ->
      (forall j, 0 <= j <= 5 -> net (port + j) "127.0.0.1" = AddrInUse) ->
      tryListenOnPort net 7 port None "0.0.0.0"
        = Some (Crashed (port + 5) "127.0.0.1",
                (port, "0.0.0.0")
                  :: ((fun j => (port + j, "127.0.0.1")) <$> seqZ 0 6)))
  /\ (net port host = NotSupported -> host <> "0.0.0.0" ->
      tryListenOnPort net 7 port None host
        = Some (Crashed port host, [(port, host)])).
Proof.
  assert (forall h fuel,
            (forall j, 0 <= j <= 5 -> net (port + j) h = AddrInUse) ->
            startListening net 5 (6 + fuel) 0 port h
              = Some (Crashed (port + 5) h,
                      (fun j => (port + j, h)) <$> seqZ 0 6)) as Hsix.
  { intros h fuel Hbusy.
    pose proof (Hbusy 0 ltac:(lia)) as H0. rewrite Z.add_0_r in H0.
    pose proof (Hbusy 1 ltac:(lia)) as H1.
    pose proof (Hbusy 2 ltac:(lia)) as H2.
    pose proof (Hbusy 3 ltac:(lia)) as H3.
    pose proof (Hbusy 4 ltac:(lia)) as H4.
    pose proof (Hbusy 5 ltac:(lia)) as H5.
    change (6 + fuel)%nat with (S (S (S (S (S (S fuel)))))).
    rewrite startListening_step, H0. cbn [Nat.ltb Nat.leb].
    rewrite startListening_step, H1. cbn [Nat.ltb Nat.leb].
    replace (port + 1 + 1) with (port + 2) by lia.
    rewrite startListening_step, H2. cbn [Nat.ltb Nat.leb].
    replace (port + 2 + 1) with (port + 3) by lia.
    rewrite startListening_step, H3. cbn [Nat.ltb Nat.leb].
    replace (port + 3 + 1) with (port + 4) by lia.
    rewrite startListening_step, H4. cbn [Nat.ltb Nat.leb].
    replace (port + 4 + 1) with (port + 5) by lia.
    rewrite startListening_step, H5. cbn [Nat.ltb Nat.leb].
    change (seqZ 0 6) with [0; 1; 2; 3; 4; 5]. cbn [fmap list_fmap].
    by rewrite Z.add_0_r. }
  unfold tryListenOnPort. cbn [default]. split; [| split].
  - intros Hbusy. by apply (Hsix host 1%nat).
  - intros Hns Hbusy. rewrite startListening_step, Hns.
    change (String.eqb "0.0.0.0" "0.0.0.0") with true. cbn match.
    pose proof (Hsix "127.0.0.1" 0%nat Hbusy) as Hrest.
    cbn [Nat.add] in Hrest. by rewrite Hrest.
  - intros Hns Hhost. rewrite startListening_step, Hns.
    apply String.eqb_neq in Hhost. by rewrite Hhost.
Qed.

(** A machine with every port taken, and one that refuses every bind. *)
Lemma port_search_gives_up_witness :
  fst <$> tryListenOnPort full_net 7 5000 None "0.0.0.0"
    = Some (Crashed 5005 "0.0.0.0")
  /\ tryListenOnPort unsupported_net 7 5000 None "192.168.1.5"
     = Some (Crashed 5000 "192.168.1.5", [(5000, "192.168.1.5")]).
Proof.
  split.
  - rewrite (proj1 (port_search_gives_up full_net 5000 "0.0.0.0")); [done |].
    by intros j Hj.
  - apply (proj2 (proj2 (port_search_gives_up unsupported_net 5000 "192.168.1.5")));
      [| done].
    reflexivity.
Defined.

(** * The client: properties *)

(** ** Export *)

Lemma read_quoted_doubled q s rest :
  ends_field q rest = true ->
  read_quoted q (double_quotes q s +:+ String q rest) = Some (s, rest).
Proof.
  intros Hrest. induction s as [| c s IH].
  - change (double_quotes q "" +:+ String q rest) with (String q rest).
    cbn [read_quoted]. rewrite Ascii.eqb_refl.
    destruct rest as [| c' r']; [done |].
    cbn in Hrest. apply negb_true_iff in Hrest. by rewrite Hrest.
  - cbn [double_quotes]. destruct (Ascii.eqb c q) eqn:Hc.
    + apply Ascii.eqb_eq in Hc as ->.
      change (String q (String q (double_quotes q s)) +:+ String q rest)
        with (String q (String q (double_quotes q s +:+ String q rest))).
      cbn [read_quoted]. by rewrite !Ascii.eqb_refl, IH.
    + change (String c (double_quotes q s) +:+ String q rest)
        with (String c (double_quotes q s +:+ String q rest)).
      cbn [read_quoted]. by rewrite Hc, IH.
Qed.

Lemma read_field_quoted q s rest :
  ends_field q rest = true ->
  read_field q (quoted q s +:+ rest) = Some (s, rest).
Proof.
  intros Hrest. unfold quoted.
  change (String q (double_quotes q s +:+ String q "") +:+ rest)
    with (String q ((double_quotes q s +:+ String q "") +:+ rest)).
  cbn [read_field]. rewrite Ascii.eqb_refl, app_string_assoc.
  by apply read_quoted_doubled.
Qed.

(** X20: exported text cells read back.  A string cell of the CSV export,
    whatever it contains (commas, line breaks, double quotes), is read back
    unchanged by a reader that takes a quoted field up to the first quote
    that is not doubled, provided the text after the cell does not start
    with a double quote (it is a comma, a line break or the end).  The same
    holds for a string value of the SQL export read as a string literal
    with single quotes. *)
Theorem export_quoting_round_trip (stringify : JsVal -> string) (s rest : string) :
  (ends_field "034"%char rest = true ->
   read_field "034"%char (csv_cell stringify (VStr s) +:+ rest) = Some (s, rest))
  /\ (ends_field "'"%char rest = true ->
      read_field "'"%char (sql_value stringify (VStr s) +:+ rest) = Some (s, rest)).
Proof. split; apply read_field_quoted. Qed.

(** A cell holding a comma, a quote and a line break, followed by a comma. *)
Lemma export_quoting_round_trip_witness :
  let cell := "Smith, " +:+ dq +:+ "Bob" +:+ dq +:+ String "010"%char "Jr" in
  read_field "034"%char (csv_cell js_to_string (VStr cell) +:+ ",42")
    = Some (cell, ",42").
Proof.
  intros cell.
  apply (proj1 (export_quoting_round_trip js_to_string cell ",42")).
  reflexivity.
Defined.

(** ** The pager *)

Lemma total_pages_spec total pageSize :
  0 < pageSize ->
  (total_pages total pageSize - 1) * pageSize < total
  /\ total <= total_pages total pageSize * pageSize.
Proof.
  intros Hps. unfold total_pages.
  pose proof (Z.mul_div_le (- total) pageSize Hps).
  pose proof (Z.mul_succ_div_gt (- total) pageSize Hps).
  nia.
Qed.

(** Page [n] exists exactly when its offset lies inside the table. *)
Lemma page_exists total pageSize n :
  0 < pageSize ->
  n <= total_pages total pageSize <-> (n - 1) * pageSize < total.
Proof.
  intros Hps. destruct (total_pages_spec total pageSize Hps). split; nia.
Qed.

Lemma seqZ_increasing (k : nat) : forall m n,
  Z.to_nat n = k -> StronglySorted Z.lt (seqZ m n).
Proof.
  induction k as [| k IH]; intros m n Hk.
  - rewrite seqZ_nil by lia. constructor.
  - rewrite seqZ_cons by lia. constructor.
    + apply IH. lia.
    + apply Forall_forall. intros x Hx%elem_of_seqZ. lia.
Qed.

Lemma unique_increasing l : forall seen,
  StronglySorted Z.lt l ->
  (forall x y, x ∈ seen -> y ∈ l -> x < y) ->
  unique seen l = l.
Proof.
  induction l as [| p r IH]; intros seen Hsorted Hseen; [done |].
  apply StronglySorted_cons in Hsorted as [Hp Hr]. cbn [unique].
  rewrite bool_decide_eq_false_2.
  - f_equal. apply IH; [done |].
    intros x y [-> | Hx]%elem_of_cons Hy.
    + rewrite Forall_forall in Hp. by apply Hp.
    + apply Hseen; [done | by right].
  - intros Hin. specialize (Hseen p p Hin ltac:(left)). lia.
Qed.

Lemma sort_increasing l : StronglySorted Z.lt l -> sort_numbers l = l.
Proof.
  induction l as [| p r IH]; [done |].
  intros [Hp Hr]%StronglySorted_cons. cbn. unfold sort_numbers in IH.
  rewrite (IH Hr). destruct r as [| m r]; [done |].
  cbn. apply Forall_cons in Hp as [Hpm _].
  destruct (Z.leb_spec p m); [done | lia].
Qed.

Lemma page_numbers_with_ellipsis l : forall previous,
  page_numbers (with_ellipsis previous l) = l.
Proof.
  induction l as [| p r IH]; intros previous; [done |].
  cbn [with_ellipsis]. unfold page_numbers in *. rewrite omap_app.
  destruct previous as [q |]; [destruct (q + 1 <? p) |]; cbn;
    by rewrite IH.
Qed.

(** The pages [getPageNumbers] collects are already in increasing order,
    so removing duplicates and sorting change nothing. *)
Lemma getPageNumbers_pages total pageSize page :
  let totalPages := total_pages total pageSize in
  let lo := Z.max 2 (page - 1) in
  let hi := Z.min (totalPages - 1) (page + 1) in
  page_numbers (getPageNumbers total pageSize page)
  = [1] ++ seqZ lo (hi - lo + 1) ++ (if 1 <? totalPages then [totalPages] else []).
Proof.
  intros totalPages lo hi. unfold getPageNumbers. fold totalPages lo hi.
  rewrite page_numbers_with_ellipsis.
  set (pages := [1] ++ _ ++ _).
  assert (StronglySorted Z.lt pages) as Hsorted.
  { unfold pages. apply StronglySorted_app_2; [| repeat constructor |].
    - intros x1 x2 ->%list_elem_of_singleton [Hx%elem_of_seqZ | Hx]%elem_of_app;
        [lia |].
      destruct (Z.ltb_spec 1 totalPages); [| by apply elem_of_nil in Hx].
      apply list_elem_of_singleton in Hx. lia.
    - apply StronglySorted_app_2; [| by eapply seqZ_increasing |].
      + intros x1 x2 Hx1%elem_of_seqZ Hx2.
        destruct (Z.ltb_spec 1 totalPages); [| by apply elem_of_nil in Hx2].
        apply list_elem_of_singleton in Hx2. lia.
      + destruct (1 <? totalPages); repeat constructor. }
  rewrite unique_increasing; [by apply sort_increasing | done |].
  intros x y Hx. by apply elem_of_nil in Hx.
Qed.

Lemma shown_page total pageSize page n :
  let totalPages := total_pages total pageSize in
  n ∈ page_numbers (getPageNumbers total pageSize page) <->
  n = 1
  \/ (Z.max 2 (page - 1) <= n <= Z.min (totalPages - 1) (page + 1))
  \/ (1 < totalPages /\ n = totalPages).
Proof.
  intros totalPages. rewrite getPageNumbers_pages. fold totalPages.
  rewrite !elem_of_app, list_elem_of_singleton, elem_of_seqZ.
  destruct (Z.ltb_spec 1 totalPages).
  - rewrite list_elem_of_singleton. lia.
  - rewrite elem_of_nil. lia.
Qed.

Lemma shown_page_inside total pageSize page n :
  0 < pageSize ->
  n ∈ page_numbers (getPageNumbers total pageSize page) ->
  n = 1 \/ (1 < n /\ (n - 1) * pageSize < total).
Proof.
  intros Hps Hn%shown_page.
  pose proof (page_exists total pageSize n Hps) as Hexists.
  destruct Hn as [-> | [Hn | [Hn ->]]]; [by left | right.. ].
  - split; [lia |]. apply Hexists. lia.
  - split; [done |]. by apply Hexists.
Qed.

Lemma page_link_shown items n :
  PageNumber n ∈ items <-> n ∈ page_numbers items.
Proof.
  unfold page_numbers. rewrite list_elem_of_omap. split.
  - intros Hin. by exists (PageNumber n).
  - by intros ([m |] & Hin & [= ->]).
Qed.

(** X21: the page links.  For a positive page size, the numbers shown by
    [getPageNumbers] come in strictly increasing order; page 1 is always
    among them; every number shown is page 1 or a page whose offset lies
    inside the table; and the current page is shown whenever it is such a
    page. *)
Theorem page_links_lead_inside total pageSize page :
  0 < pageSize ->
  let shown := page_numbers (getPageNumbers total pageSize page) in
  StronglySorted Z.lt shown
  /\ 1 ∈ shown
  /\ (forall n, n ∈ shown -> n = 1 \/ (1 < n /\ (n - 1) * pageSize < total))
  /\ (1 <= page -> (page - 1) * pageSize < total -> page ∈ shown).
Proof.
  intros Hps shown. subst shown.
  set (totalPages := total_pages total pageSize).
  split; [| split; [| split]].
  - rewrite getPageNumbers_pages. fold totalPages.
    apply StronglySorted_app_2; [| repeat constructor |].
    + intros x1 x2 ->%list_elem_of_singleton [Hx%elem_of_seqZ | Hx]%elem_of_app;
        [lia |].
      destruct (Z.ltb_spec 1 totalPages); [| by apply elem_of_nil in Hx].
      apply list_elem_of_singleton in Hx. lia.
    + apply StronglySorted_app_2; [| by eapply seqZ_increasing |].
      * intros x1 x2 Hx1%elem_of_seqZ Hx2.
        destruct (Z.ltb_spec 1 totalPages); [| by apply elem_of_nil in Hx2].
        apply list_elem_of_singleton in Hx2. lia.
      * destruct (1 <? totalPages); repeat constructor.
  - apply shown_page. by left.
  - intros n. by apply shown_page_inside.
  - intros Hpage Hin. apply page_exists in Hin; [| done]. fold totalPages in Hin.
    apply shown_page. fold totalPages. lia.
Qed.

(** A table of 95 rows, ten a page, on page 5: links 1, 4, 5, 6 and 10. *)
Lemma page_links_lead_inside_witness :
  page_numbers (getPageNumbers 95 10 5) = [1; 4; 5; 6; 10]
  /\ 5 ∈ page_numbers (getPageNumbers 95 10 5).
Proof.
  split; [reflexivity |].
  apply (proj2 (proj2 (proj2 (page_links_lead_inside 95 10 5 ltac:(lia)))));
    lia.
Defined.

Lemma pager_step_inside total s a :
  inside_table total s -> offered total s a ->
  inside_table total (pager_step total a s).
Proof.
  intros (Hps & Hpage & Hin) Hoffered. unfold inside_table.
  destruct a as [| | n | size]; cbn [pager_step pg_page pg_pageSize].
  - split; [done |]. split; [lia |]. nia.
  - destruct (Z.ltb_spec (pg_page s * pg_pageSize s) total);
      cbn [pg_page pg_pageSize]; [| done].
    split; [done |]. split; [lia |]. right. lia.
  - cbn [offered] in Hoffered.
    apply page_link_shown, (shown_page_inside _ _ _ _ Hps) in Hoffered. lia.
  - cbn [offered] in Hoffered.
    rewrite !elem_of_cons, elem_of_nil in Hoffered. lia.
Qed.

Lemma pager_run_inside total actions : forall s,
  inside_table total s -> all_offered total actions s ->
  inside_table total (pager_run total actions s).
Proof.
  induction actions as [| a r IH]; intros s Hs Hall; [done |].
  destruct Hall as [Ha Hr]. cbn. apply IH; [| done].
  by apply pager_step_inside.
Qed.

(** X22: the pager and the reader together.  On a table whose row count
    stays [length R], start from the initial pager (page 1, ten rows) and
    take any run of offered actions: Previous, Next, a click on a link that
    [getPageNumbers] shows, a size from the selector.  The page then
    requested is at least 1 with a positive size, and the offset
    [getTableData] computes for it, [(page - 1) * pageSize], lies inside the
    table; so a target that honours LIMIT and OFFSET returns at least one
    row unless the table is empty. *)
Theorem pager_never_leaves_table (R : list JsObj) actions :
  let total := Z.of_nat (length R) in
  all_offered total actions initial_pager ->
  let s := pager_run total actions initial_pager in
  inside_table total s
  /\ (R <> [] ->
      limit_offset (pg_pageSize s) ((pg_page s - 1) * pg_pageSize s) R <> []).
Proof.
  intros total Hall s.
  assert (inside_table total s) as Hs.
  { apply pager_run_inside; [| done]. unfold inside_table, initial_pager. cbn.
    lia. }
  split; [done |]. intros HR Hempty.
  apply (f_equal length) in Hempty. unfold limit_offset in Hempty.
  rewrite length_take, length_drop in Hempty. cbn [length] in Hempty.
  destruct Hs as (Hps & Hpage & Hin). subst total.
  assert (0 < length R)%nat by (destruct R; [done | cbn; lia]).
  nia.
Qed.

(** Twenty-five rows: to the last page by Next, Next, then the selector. *)
Lemma pager_never_leaves_table_witness :
  let R := replicate 25 ([] : JsObj) in
  let s := pager_run 25 [Next; Next; Next; Goto 1; Goto 3; RowsPerPage 25]
             initial_pager in
  inside_table 25 s
  /\ (R <> [] ->
      limit_offset (pg_pageSize s) ((pg_page s - 1) * pg_pageSize s) R <> []).
Proof.
  apply (pager_never_leaves_table (replicate 25 ([] : JsObj))
           [Next; Next; Next; Goto 1; Goto 3; RowsPerPage 25]).
  cbn. repeat split; try (apply page_link_shown; vm_compute);
    repeat constructor.
Defined.
